(** * anago.data.preprocess: vocabularies, numericalisation and padding

    A shallow embedding of [anago/data/preprocess.py] and the properties of
    its vocabulary and padding routines.

    Python values are embedded as follows.
    - A [str] is its sequence of Unicode code points, [list N]; a character
      is a code point (as a dictionary key: the one-character string).
    - An [int] is a [Z].
    - A [dict] from strings to ints is a [gmap (list N) Z], a [set] of
      strings a [gset (list N)].
    - An exception is a value of [exn]; a computation that can raise returns
      a [result]. *)

From stdpp Require Import gmap list fin_maps strings.
From Stdlib Require Import ZArith NArith Lia.

Local Open Scope Z_scope.

(** ** Strings *)

Abbreviation char := N (only parsing).
Abbreviation str := (list N) (only parsing).
Abbreviation dict := (gmap (list N) Z) (only parsing).

(** The Python string with the given ASCII text. *)
Fixpoint py (s : string) : str :=
  match s with
  | EmptyString => []
  | String a s' => Ascii.N_of_ascii a :: py s'
  end.

(** [len(x)] *)
Definition len {A} (l : list A) : Z := Z.of_nat (length l).

(** ** Exceptions *)

Inductive key :=
  | KStr (s : str)
  | KInt (i : Z).

Inductive exn :=
  | KeyError (k : key)
  | TypeError
  | ValueError
  | AttributeError
  | IndexError.

Inductive result (A : Type) :=
  | Ok (a : A)
  | Raise (e : exn).
Arguments Ok {A} a.
Arguments Raise {A} e.

#[global] Instance result_ret : MRet result := λ A a, Ok a.
#[global] Instance result_bind : MBind result := λ A B f m,
  match m with
  | Ok a => f a
  | Raise e => Raise e
  end.
#[global] Instance result_fmap : FMap result := λ A B f m,
  match m with
  | Ok a => Ok (f a)
  | Raise e => Raise e
  end.

Definition raises {A} (m : result A) : Prop := ∃ e, m = Raise e.

(** ** Dictionaries *)

(** [d[k]] *)
Definition getitem (d : dict) (k : str) : result Z :=
  match d !! k with
  | Some v => Ok v
  | None => Raise (KeyError (KStr k))
  end.

(** [d.get(k, dflt)], the default being an already evaluated argument. *)
Definition dict_get (d : dict) (k : str) (dflt : Z) : Z :=
  default dflt (d !! k).

(** [k in d] *)
Definition contains (d : dict) (k : str) : bool := bool_decide (is_Some (d !! k)).

(** The values of [d] are exactly [0, 1, ..., len(d) - 1]. *)
Definition contiguous (d : dict) : Prop :=
  ∀ i : Z, (∃ k, d !! k = Some i) ↔ 0 ≤ i < Z.of_nat (size d).

(** No two keys of [d] share a value. *)
Definition injective (d : dict) : Prop :=
  ∀ k1 k2 v, d !! k1 = Some v → d !! k2 = Some v → k1 = k2.

(** ** Regular expressions: one character class, substituted by [re.sub] *)

Inductive class_item :=
  | CRange (lo hi : char)
  | CLit (c : char).

Definition class_item_matches (c : char) (it : class_item) : bool :=
  match it with
  | CRange lo hi => ((lo <=? c) && (c <=? hi))%N
  | CLit c' => (c =? c')%N
  end.

Definition class_matches (cls : list class_item) (c : char) : bool :=
  existsb (class_item_matches c) cls.

(** [re.sub('[cls]', repl, s)]: the matches of a character class are the
    single characters in it, each replaced by [repl]. *)
Definition re_sub_class (cls : list class_item) (repl : str) (s : str) : str :=
  c ← s; if class_matches cls c then repl else [c].

(** The class [[0-9０１２３４５６７８９]]; the full-width digits are U+FF10 to
    U+FF19. *)
Definition digit_class : list class_item :=
  [ CRange 48 57;
    CLit 0xFF10; CLit 0xFF11; CLit 0xFF12; CLit 0xFF13; CLit 0xFF14;
    CLit 0xFF15; CLit 0xFF16; CLit 0xFF17; CLit 0xFF18; CLit 0xFF19 ]%N.

Definition digit_to_zero (word : str) : str :=
  re_sub_class digit_class (py "0") word.

(** The ten ASCII digits and the ten full-width digits. *)
Definition ascii_digits : list char := py "0123456789".
Definition fullwidth_digits : list char :=
  [0xFF10; 0xFF11; 0xFF12; 0xFF13; 0xFF14; 0xFF15; 0xFF16; 0xFF17; 0xFF18; 0xFF19]%N.

(** ASCII lowercasing: what [str.lower] does on a string of ASCII
    characters. It instantiates [lower] below on concrete inputs. *)
Definition ascii_lower (s : str) : str :=
  (λ c, if ((65 <=? c) && (c <=? 90))%N then (c + 32)%N else c) <$> s.

(** Values of the reserved tokens for the statements on concrete inputs;
    the general statements hold for any tokens. *)
Definition UNK_token : str := py "<UNK>".
Definition PAD_token : str := py "<PAD>".
Definition NUM_token : str := py "<NUM>".

(** ** Slices and repetition *)

(** [[0] * n] *)
Definition zeros (n : Z) : list Z := replicate (Z.to_nat n) 0.

(** [l[:n]] *)
Definition slice_to {A} (l : list A) (n : Z) : list A :=
  take (Z.to_nat (if n <? 0 then len l + n else n)) l.

(** [l[n:]] *)
Definition slice_from {A} (l : list A) (n : Z) : list A :=
  drop (Z.to_nat (if n <? 0 then len l + n else n)) l.

(** ** The Keras helpers the module calls

    [keras.preprocessing.sequence.pad_sequences(sequences, maxlen,
    dtype='int32', padding='pre', truncating='pre', value=0.)] allocates an
    array of [maxlen] columns filled with [value] and, for each non-empty
    sequence, cuts it to at most [maxlen] elements (from the front when
    [truncating] is ['pre'], keeping [s[-maxlen:]]; from the back when it is
    ['post'], keeping [s[:maxlen]]) and writes it at the start ([padding]
    ['post']) or at the end (['pre']) of its row. Ids are taken to fit the
    array's [int32] cells. *)

Inductive side := Pre | Post.

Definition pad_row (maxlen : Z) (padding truncating : side) (s : list Z)
  : result (list Z) :=
  (* an empty sequence is skipped: its row keeps the fill value *)
  if bool_decide (s = []) then Ok (zeros maxlen)
  else
    let trunc := match truncating with
                 | Pre => slice_from s (- maxlen)
                 | Post => slice_to s maxlen
                 end in
    (* x[idx, :len(trunc)] = trunc, or x[idx, -len(trunc):] = trunc *)
    if len trunc <=? maxlen then
      Ok (match padding with
          | Post => trunc ++ zeros (maxlen - len trunc)
          | Pre => zeros (maxlen - len trunc) ++ trunc
          end)
    (* [trunc] is longer than the row only when [maxlen] is 0, where
       [s[-0:]] is all of [s]: numpy broadcasts one element into the empty
       row and rejects more *)
    else if len trunc =? 1 then Ok (zeros maxlen)
    else Raise ValueError.

Definition pad_sequences (sequences : list (list Z)) (maxlen : Z)
    (padding truncating : side) : result (list (list Z)) :=
  (* an array cannot have a negative number of columns *)
  if maxlen <? 0 then Raise ValueError
  else mapM (pad_row maxlen padding truncating) sequences.

(** The vector of width [nc] that is 1 at index [j] and 0 elsewhere (the
    array holds the floats 0.0 and 1.0, written 0 and 1 here). *)
Definition one_hot (nc j : Z) : list Z :=
  (λ k, if k =? j then 1 else 0) <$> seqZ 0 nc.

(** [max(y)] of a non-empty [y] *)
Definition maximum (y : list Z) : Z :=
  match y with
  | [] => 0
  | y0 :: y' => foldl Z.max y0 y'
  end.

(** [keras.utils.np_utils.to_categorical(y, num_classes)] on a vector [y]
    of class ids: one row per id, a falsy [num_classes] standing for
    [max(y) + 1]; an id indexes its row as numpy does, from the end when
    negative. *)
Definition to_categorical (y : list Z) (num_classes : Z)
  : result (list (list Z)) :=
  nc ← (if num_classes =? 0 then
          if bool_decide (y = []) then Raise ValueError else Ok (maximum y + 1)
        else Ok num_classes);
  if nc <? 0 then Raise ValueError
  else mapM (λ yi, if (- nc <=? yi) && (yi <? nc)
                   then Ok (one_hot nc (yi `mod` nc))
                   else Raise IndexError) y.

(** ** Padding *)

Record config := Config {
  num_steps : Z;
  max_word_len : Z
}.

Definition pad_words (xs : list (list Z)) (cfg : config)
  : result (list (list Z)) :=
  pad_sequences xs (num_steps cfg) Post Pre.

Definition to_onehot (ys : list (list Z)) (cfg : config) (ntags : Z)
  : result (list (list (list Z))) :=
  ys ← pad_sequences ys (num_steps cfg) Post Pre;
  mapM (λ y, to_categorical y ntags) ys.

Definition pad_word_chars (words : list (list Z)) (max_word_len : Z)
  : list (list Z) :=
  (λ word,
     let padding := zeros (max_word_len - len word) in
     let padded_word := word ++ padding in
     slice_to padded_word max_word_len) <$> words.

(** *** Lists as objects

    [pad_words1] updates the list it is given, so the lists of words are
    kept in a store of list objects; a variable holds a location. The words
    themselves (lists of ids) are never updated and are kept as values. *)

Abbreviation loc := nat (only parsing).
Abbreviation heap := (gmap nat (list (list Z))) (only parsing).

Definition alloc (v : list (list Z)) (h : heap) : loc * heap :=
  let l := fresh (dom h) in (l, <[l := v]> h).

Definition pad_words1 (words : loc) (max_word_len max_sent_len : Z) (h : heap)
  : option (loc * heap) :=
  ws ← h !! words;
  let padding :=
    replicate (Z.to_nat (max_sent_len - len ws)) (zeros max_word_len) in
  (* words += padding *)
  let h := <[words := ws ++ padding]> h in
  (* words[:max_sent_len] *)
  Some (alloc (slice_to (ws ++ padding) max_sent_len) h).

Fixpoint pad_chars_loop (dataset : list (list (list Z))) (cfg : config)
    (result : list (list (list Z))) (h : heap)
  : option (list (list (list Z)) * heap) :=
  match dataset with
  | [] => Some (result, h)
  | sent :: dataset =>
      let '(words, h) := alloc (pad_word_chars sent (max_word_len cfg)) h in
      '(words, h) ← pad_words1 words (max_word_len cfg) (num_steps cfg) h;
      v ← h !! words;
      pad_chars_loop dataset cfg (result ++ [v]) h
  end.

Definition pad_chars (dataset : list (list (list Z))) (cfg : config) (h : heap)
  : option (list (list (list Z)) * heap) :=
  pad_chars_loop dataset cfg [] h.

(** ** Datasets *)

Record dataset := Dataset {
  sents : list (list str);
  labels : list (list str)
}.

Record corpus := Corpus {
  train : dataset;
  valid : dataset;
  test : dataset
}.

(** The result of the closure of [get_processing_word]: the word, still a
    string or already an id, alone or after the list of its character ids. *)
Inductive token :=
  | TStr (s : str)
  | TId (i : Z).

Inductive processed :=
  | Word (w : token)
  | CharsWord (char_ids : list Z) (w : token).

Definition word_of (r : processed) : token :=
  match r with
  | Word w => w
  | CharsWord _ w => w
  end.

(** What [WordPreprocessor.transform] returns for one sentence. *)
Inductive features :=
  | Words (word_ids : list Z)
  | CharsWords (char_word_ids : list (list Z)) (word_ids : list Z).

Record WordPreprocessor := Preprocessor {
  lowercase : bool;
  num_norm : bool;
  char_feature : bool;
  vocab_word : option dict;
  vocab_char : option dict;
  vocab_tag : option dict;
  vocab_init : list str
}.

(** [WordPreprocessor(lowercase, num_norm, char_feature, vocab_init)];
    [vocab_init] is given by its keys, [None] standing for no argument. *)
Definition init (lowercase num_norm char_feature : bool)
    (vocab_init : option (list str)) : WordPreprocessor :=
  {| lowercase := lowercase;
     num_norm := num_norm;
     char_feature := char_feature;
     vocab_word := None;
     vocab_char := None;
     vocab_tag := None;
     vocab_init := default [] vocab_init |}.

(** [if k not in d: d[k] = len(d)] *)
Definition add_token (d : dict) (k : str) : dict :=
  if contains d k then d else <[k := Z.of_nat (size d)]> d.

(** ** Files *)

(** The files, by path: each one the lines that reading it yields, with
    their line ends. *)
Abbreviation files := (gmap (list N) (list (list N))) (only parsing).

(** What opening and reading a file gives. *)
Inductive io_result (A : Type) :=
  | Read (a : A)
  | FileNotFoundError (filename : str).
Arguments Read {A} a.
Arguments FileNotFoundError {A} filename.

(** The named tuple [Vocab] of the three vocabularies. *)
Module Vocab.
Record t := Build {
  word : dict;
  char : dict;
  tag : dict
}.
End Vocab.

(** [str.isspace] on the ASCII characters: tab to carriage return, the
    four separators and the space. It instantiates [isspace] below on
    concrete inputs. *)
Definition ascii_isspace (c : char) : bool :=
  ((9 <=? c) && (c <=? 13) || (28 <=? c) && (c <=? 32))%N.

(** [float] on the numerals of one digit, as integers. It instantiates
    [float_of_str] below on concrete inputs. *)
Definition digit_of_str (x : str) : option Z :=
  match x with
  | [c] => if ((48 <=? c) && (c <=? 57))%N then Some (Z.of_N c - 48) else None
  | _ => None
  end.

Section preprocess.

(** The reserved tokens of [anago.data_utils] and [anago.data.reader], and
    [str.lower]. *)
Variables UNK PAD NUM : str.
Variable lower : str → str.

(** The order in which Python enumerates a set, which the language leaves
    open: some enumeration of its elements. *)
Variable set_iter : gset str → list str.
Hypothesis set_iter_elements : ∀ s, set_iter s ≡ₚ elements s.

(** *** [get_processing_word] *)

(** The loop over the characters of the word; the default of [get] is an
    argument, evaluated before the call. *)
Fixpoint char_ids_loop (vocab_chars : dict) (word : str) (char_ids : list Z)
  : result (list Z) :=
  match word with
  | [] => Ok char_ids
  | c :: word =>
      if contains vocab_chars [c] then
        unk ← getitem vocab_chars UNK;
        char_ids_loop vocab_chars word
          (char_ids ++ [dict_get vocab_chars [c] unk])
      else char_ids_loop vocab_chars word char_ids
  end.

Definition normalized (lowercase : bool) (word : str) : str :=
  let word := if lowercase then lower word else word in
  digit_to_zero word.

Definition get_processing_word (vocab_words vocab_chars : option dict)
    (lowercase use_char : bool) (word : str) : result processed :=
  (* 0. preprocess word *)
  let word := normalized lowercase word in
  (* 1. get chars of words *)
  char_ids ← match vocab_chars with
             | Some vc => if use_char then char_ids_loop vc word [] else Ok []
             | None => Ok []
             end;
  (* 2. get id of word *)
  w ← match vocab_words with
      | Some vw =>
          pad ← getitem vw PAD;
          Ok (TId (dict_get vw word (dict_get vw UNK pad)))
      | None => Ok (TStr word)
      end;
  (* 3. return tuple char ids, word id *)
  Ok (match vocab_chars with
      | Some _ => if use_char then CharsWord char_ids w else Word w
      | None => Word w
      end).

(** *** Collecting vocabularies *)

Definition get_vocabs (datasets : list dataset) : gset str * gset str :=
  foldl (λ acc ds,
           foldl (λ '(vocab_words, vocab_tags) '(words, tags),
                    (vocab_words ∪ list_to_set words,
                     vocab_tags ∪ list_to_set tags))
                 acc (zip (sents ds) (labels ds)))
        (∅, ∅) datasets.

Definition get_char_vocab (ds : dataset) : gset str :=
  foldl (λ vocab_char words,
           foldl (λ vocab_char word,
                    vocab_char ∪ list_to_set ((λ c, [c]) <$> word))
                 vocab_char words)
        ∅ (sents ds).

(** [build_vocab] up to the three sets it saves; [vocab_glove] is what
    [load_glove_vocab(config.glove_path)] returned. The closure
    [processing_word] is built and not applied. *)
Definition build_vocab_sets (ds : corpus) (vocab_glove : gset str)
  : gset str * gset str * gset str :=
  let processing_word := get_processing_word None None true false in
  let '(vocab_words, vocab_tags) := get_vocabs [train ds; valid ds; test ds] in
  let vocab_chars := get_char_vocab (train ds) in
  let vocab_words := vocab_words ∩ vocab_glove in
  let vocab_words := vocab_words ∪ {[UNK]} in
  let vocab_words := vocab_words ∪ {[NUM]} in
  (vocab_words, vocab_chars, vocab_tags).

(** *** [WordPreprocessor] *)

Definition _lower (self : WordPreprocessor) (word : str) : str :=
  if lowercase self then lower word else word.

Definition _normalize_num (self : WordPreprocessor) (word : str) : str :=
  if num_norm self then re_sub_class digit_class (py "0") word else word.

Definition fit_word (self : WordPreprocessor) (st : dict * dict) (w : str)
  : dict * dict :=
  let '(words, chars) := st in
  let w := _lower self w in
  let w := _normalize_num self w in
  let words := add_token words w in
  if negb (char_feature self) then (words, chars)
  else (words, foldl (λ chars c, add_token chars [c]) chars w).

Definition fit (self : WordPreprocessor) (X y : list (list str))
  : WordPreprocessor :=
  let words : dict := {[UNK := 0]} in
  let chars : dict := {[UNK := 0]} in
  let tags : dict := ∅ in
  let '(words, chars) :=
    foldl (fit_word self) (words, chars)
          (set_iter (list_to_set (concat X) ∪ list_to_set (vocab_init self))) in
  let tags := foldl add_token tags (concat y) in
  {| lowercase := lowercase self;
     num_norm := num_norm self;
     char_feature := char_feature self;
     vocab_word := Some words;
     vocab_char := Some chars;
     vocab_tag := Some tags;
     vocab_init := vocab_init self |}.

Definition _get_char_ids (self : WordPreprocessor) (word : str)
  : result (list Z) :=
  mapM (λ c, match vocab_char self with
             | None => Raise AttributeError
             | Some vc =>
                 unk ← getitem vc UNK;
                 Ok (dict_get vc [c] unk)
             end) word.

Fixpoint transform_sent (self : WordPreprocessor) (sent : list str)
    (word_ids : list Z) (char_word_ids : list (list Z))
  : result (list Z * list (list Z)) :=
  match sent with
  | [] => Ok (word_ids, char_word_ids)
  | w :: sent =>
      let w := _lower self w in
      let w := _normalize_num self w in
      word_id ← match vocab_word self with
                | None => Raise TypeError
                | Some vw =>
                    if contains vw w then getitem vw w else getitem vw UNK
                end;
      let word_ids := word_ids ++ [word_id] in
      if char_feature self then
        char_ids ← _get_char_ids self w;
        transform_sent self sent word_ids (char_word_ids ++ [char_ids])
      else transform_sent self sent word_ids char_word_ids
  end.

Definition transform (self : WordPreprocessor) (X y : list (list str))
  : result (list features * list (list Z)) :=
  sents ← mapM (λ sent,
                  '(word_ids, char_word_ids) ← transform_sent self sent [] [];
                  Ok (if char_feature self
                      then CharsWords char_word_ids word_ids
                      else Words word_ids)) X;
  y ← mapM (λ sent,
              mapM (λ t, match vocab_tag self with
                         | None => Raise TypeError
                         | Some vt => getitem vt t
                         end) sent) y;
  Ok (sents, y).

(** [{i: t for t, i in vocab_tag.items()}] *)
Definition indice_tag (vocab_tag : dict) : gmap Z str :=
  foldl (λ acc '(t, i), <[i := t]> acc) ∅ (map_to_list vocab_tag).

Definition inverse_transform (self : WordPreprocessor) (y : list Z)
  : result (list str) :=
  match vocab_tag self with
  | None => Raise AttributeError
  | Some vt =>
      let indice_tag := indice_tag vt in
      mapM (λ y_, match indice_tag !! y_ with
                  | Some t => Ok t
                  | None => Raise (KeyError (KInt y_))
                  end) y
  end.

(** *** Vocabulary files *)

(** [str.isspace] on a character. *)
Variable isspace : char → bool.

(** [s.rstrip()] *)
Fixpoint rstrip (s : str) : str :=
  match s with
  | [] => []
  | c :: s =>
      match rstrip s with
      | [] => if isspace c then [] else [c]
      | r => c :: r
      end
  end.

(** [s.lstrip()] *)
Fixpoint lstrip (s : str) : str :=
  match s with
  | [] => []
  | c :: s' => if isspace c then lstrip s' else s
  end.

(** [s.strip()] *)
Definition strip (s : str) : str := lstrip (rstrip s).

(** [s.split(sep)] for a separator of one character. *)
Fixpoint split (sep : char) (s : str) : list str :=
  match s with
  | [] => [[]]
  | c :: s =>
      if (c =? sep)%N then [] :: split sep s
      else match split sep s with
           | [] => [[c]]
           | w :: ws => (c :: w) :: ws
           end
  end.



(** [func] of [load_vocab] on the open file: the lines are numbered from 0
    and a line read again takes the later number. *)
Definition load_vocab_lines (f : list str) : dict :=
  foldl (λ v '(i, w), <[rstrip w := Z.of_nat i]> v) ∅ (imap pair f).

Definition load_vocab_func (fs : files) (filename : str) : io_result dict :=
  match fs !! filename with
  | None => FileNotFoundError filename
  | Some f => Read (load_vocab_lines f)
  end.


(** *** Word embeddings *)

(** The floating-point numbers, with 0.0 and [float(x)] for a string [x],
    which raises a [ValueError] where [float_of_str] has no value. *)
Variable float : Type.
Variable float_zero : float.
Variable float_of_str : str → option float.

Definition to_float (x : str) : result float :=
  match float_of_str x with
  | Some v => Ok v
  | None => Raise ValueError
  end.

(** The first field of a line of the embedding file, and the others. *)
Definition line_word (line : str) : str := hd [] (split 32 (strip line)).
Definition line_values (line : str) : list str := tail (split 32 (strip line)).

(** [embeddings[word_idx] = np.asarray(embedding)] on an array of rows of
    [dim] numbers: an index from the end when negative; a vector of [dim]
    numbers is copied, a vector of one number fills the row, and one of
    another length is rejected. *)
Definition setitem_row (embeddings : list (list float)) (dim : Z)
    (word_idx : Z) (embedding : list float) : result (list (list float)) :=
  let n := len embeddings in
  if (- n <=? word_idx) && (word_idx <? n) then
    let i := Z.to_nat (word_idx `mod` n) in
    if len embedding =? dim then Ok (<[i := embedding]> embeddings)
    else match embedding with
         | [x] => Ok (<[i := replicate (Z.to_nat dim) x]> embeddings)
         | _ => Raise ValueError
         end
  else Raise IndexError.

Fixpoint load_word_embeddings_loop (vocab : dict) (dim : Z) (f : list str)
    (embeddings : list (list float)) : result (list (list float)) :=
  match f with
  | [] => Ok embeddings
  | line :: f =>
      let line := split 32 (strip line) in
      let word := hd [] line in
      embedding ← mapM to_float (tail line);
      embeddings ←
        (if contains vocab word then
           word_idx ← getitem vocab word;
           setitem_row embeddings dim word_idx embedding
         else Ok embeddings);
      load_word_embeddings_loop vocab dim f embeddings
  end.

(** [load_word_embeddings(vocab, glove_filename, dim)], [f] being the lines
    of the file once it is open. *)
Definition load_word_embeddings (vocab : dict) (f : list str) (dim : Z)
  : result (list (list float)) :=
  if dim <? 0 then Raise ValueError
  else load_word_embeddings_loop vocab dim f
         (replicate (size vocab) (replicate (Z.to_nat dim) float_zero)).

(** *** Notions used in the statements *)

(** The word as [fit] and [transform] look it up. *)
Definition norm (self : WordPreprocessor) (w : str) : str :=
  _normalize_num self (_lower self w).

Definition word_ids_of (f : features) : list Z :=
  match f with
  | Words word_ids => word_ids
  | CharsWords _ word_ids => word_ids
  end.

(** A vocabulary with distinct, contiguous indices. *)
Definition indexed (d : dict) : Prop := injective d ∧ contiguous d.

(** [sum(v)] *)
Definition vec_sum (v : list Z) : Z := foldr Z.add 0 v.

(** What the loop of [fit] over the words keeps true of the word and
    character vocabularies. *)
Definition fit_inv (st : dict * dict) : Prop :=
  (st.1 !! UNK = Some 0 ∧ indexed st.1) ∧ (st.2 !! UNK = Some 0 ∧ indexed st.2).

(** The ids [transform] gives a word and its characters when the
    vocabularies hold [unk] for [UNK]. *)
Definition word_id_in (vw : dict) (unk : Z) (w : str) : Z :=
  default unk (vw !! w).

Definition char_ids_in (vc : dict) (unk : Z) (w : str) : list Z :=
  (λ c, default unk (vc !! [c])) <$> w.

Definition features_in (self : WordPreprocessor) (vw vc : dict)
    (wunk cunk : Z) (sent : list str) : features :=
  let word_ids := (λ w, word_id_in vw wunk (norm self w)) <$> sent in
  if char_feature self
  then CharsWords ((λ w, char_ids_in vc cunk (norm self w)) <$> sent) word_ids
  else Words word_ids.

Definition char_ids_of (f : features) : list (list Z) :=
  match f with
  | Words _ => []
  | CharsWords char_word_ids _ => char_word_ids
  end.

(** [i] indexes a row of a table with one row for each entry of [d]. *)
Definition in_range (d : dict) (i : Z) : Prop := 0 ≤ i < Z.of_nat (size d).

(** * Properties *)

(** ** Digit folding *)

Lemma re_sub_class_singleton cls (r : char) (s : str) :
  re_sub_class cls [r] s = (λ c, if class_matches cls c then r else c) <$> s.
Proof.
  unfold re_sub_class. induction s as [|c s IH]; [done|].
  cbn. rewrite <- IH. by destruct (class_matches cls c).
Qed.

Lemma digit_class_digits (c : char) :
  class_matches digit_class c
  = bool_decide (c ∈ ascii_digits ++ fullwidth_digits).
Proof.
  destruct (class_matches digit_class c) eqn:E; symmetry.
  - cbn in E. repeat (apply orb_prop in E as [E|E]); try discriminate;
      try (apply N.eqb_eq in E; subst c; reflexivity).
    apply andb_prop in E as [E1 E2].
    apply N.leb_le in E1, E2.
    assert (c = 48 ∨ c = 49 ∨ c = 50 ∨ c = 51 ∨ c = 52 ∨ c = 53 ∨ c = 54
            ∨ c = 55 ∨ c = 56 ∨ c = 57)%N as H by lia.
    repeat (destruct H as [->|H]; [reflexivity|]). by subst c.
  - apply bool_decide_eq_false. intros H.
    assert (class_matches digit_class c = true) as E'; [|congruence].
    clear E. vm_compute in H.
    repeat (apply elem_of_cons in H as [->|H]; [reflexivity|]).
    by apply elem_of_nil in H.
Qed.

(** C8. [digit_to_zero(w)] has the length of [w]; at every position, one of
    the ten ASCII digits or of the ten full-width digits becomes ['0'], and
    any other character stays as it is. *)
Theorem digit_to_zero_folds (w : str) :
  length (digit_to_zero w) = length w ∧
  ∀ (i : nat) (c : char), w !! i = Some c →
    digit_to_zero w !! i =
      Some (if bool_decide (c ∈ ascii_digits ++ fullwidth_digits)
            then 48%N else c).
Proof.
  unfold digit_to_zero. change (py "0") with [48%N].
  rewrite re_sub_class_singleton. split.
  - apply length_fmap.
  - intros i c Hc.
    by rewrite list_lookup_fmap, Hc, <- digit_class_digits.
Qed.

(** ** Lists *)

Lemma elem_of_concat {A} (ls : list (list A)) (x : A) :
  x ∈ concat ls ↔ ∃ l, l ∈ ls ∧ x ∈ l.
Proof.
  induction ls as [|l ls IH]; cbn.
  - split; [intros []%elem_of_nil|intros (l & []%elem_of_nil & _)].
  - rewrite elem_of_app, IH. split.
    + intros [Hx|(l' & Hl' & Hx)].
      * exists l. split; [by left|done].
      * exists l'. split; [by right|done].
    + intros (l' & [->|Hl']%elem_of_cons & Hx); [by left|].
      right. eauto.
Qed.

(** ** Computations that can raise *)

Lemma result_cases {A} (m : result A) : (∃ a, m = Ok a) ∨ raises m.
Proof. destruct m; [left|right; red]; eauto. Qed.

Lemma Ok_not_raises {A} (a : A) : ¬ raises (Ok a).
Proof. by intros [e ?]. Qed.

Lemma mapM_cons {A B} (f : A → result B) (x : A) (l : list A) :
  mapM f (x :: l) = (y ← f x; k ← mapM f l; mret (y :: k)).
Proof. done. Qed.

Lemma mapM_Ok_fmap {A B} (f : A → result B) (g : A → B) (l : list A) :
  (∀ x, x ∈ l → f x = Ok (g x)) → mapM f l = Ok (g <$> l).
Proof.
  induction l as [|x l IH]; intros Hf; [done|].
  cbn. rewrite Hf by left. cbn. rewrite IH; [done|].
  intros y Hy. apply Hf. by right.
Qed.

Lemma mapM_Ok_inv {A B} (f : A → result B) (l : list A) (k : list B) :
  mapM f l = Ok k → Forall2 (λ x y, f x = Ok y) l k.
Proof.
  revert k. induction l as [|x l IH]; intros k; cbn.
  - intros [= <-]. constructor.
  - destruct (f x) as [b|] eqn:Hx; cbn; [|done].
    destruct (mapM f l) as [k'|]; cbn; [|done].
    intros [= <-]. constructor; auto.
Qed.

Lemma mapM_raises {A B} (f : A → result B) (l : list A) :
  raises (mapM f l) ↔ ∃ x, x ∈ l ∧ raises (f x).
Proof.
  induction l as [|x l IH]; cbn.
  - split; [intros []%Ok_not_raises|intros (x & []%elem_of_nil & _)].
  - destruct (f x) as [b|e] eqn:Hx; cbn.
    + destruct (mapM f l) as [k|e']; cbn.
      * split; [intros []%Ok_not_raises|].
        intros (z & [->|Hz]%elem_of_cons & Hr).
        -- rewrite Hx in Hr. by apply Ok_not_raises in Hr.
        -- exfalso. apply (Ok_not_raises k), IH. by exists z.
      * split; [|by exists e'].
        intros _. destruct IH as [IH _].
        destruct IH as (z & Hz & Hr); [by exists e'|].
        exists z. split; [by right|done].
    + split; [|by exists e].
      intros _. exists x. split; [by left|]. rewrite Hx. by exists e.
Qed.

(** ** Vocabularies *)

Lemma contains_true (d : dict) (k : str) :
  contains d k = true ↔ is_Some (d !! k).
Proof. unfold contains. apply bool_decide_eq_true. Qed.

Lemma contains_false (d : dict) (k : str) :
  contains d k = false ↔ d !! k = None.
Proof.
  unfold contains. rewrite bool_decide_eq_false. symmetry.
  apply eq_None_not_Some.
Qed.

Lemma contiguous_bound (d : dict) (k : str) (v : Z) :
  contiguous d → d !! k = Some v → 0 ≤ v < Z.of_nat (size d).
Proof. intros Hd Hk. apply Hd. eauto. Qed.

Lemma contiguous_empty : contiguous ∅.
Proof.
  intros i. rewrite map_size_empty. split; [|lia].
  intros [k Hk]. by rewrite lookup_empty in Hk.
Qed.

Lemma contiguous_singleton (k : str) : contiguous {[k := 0]}.
Proof.
  intros i. rewrite map_size_singleton. split.
  - intros [k' [_ <-]%lookup_singleton_Some]. lia.
  - intros Hi. exists k. assert (i = 0) as -> by lia.
    apply lookup_singleton_eq.
Qed.

Lemma injective_empty : injective ∅.
Proof. intros k1 k2 v Hk. by rewrite lookup_empty in Hk. Qed.

Lemma injective_singleton (k : str) (v : Z) : injective {[k := v]}.
Proof.
  intros k1 k2 v' [<- _]%lookup_singleton_Some [<- _]%lookup_singleton_Some.
  done.
Qed.

Lemma add_token_lookup (d : dict) (k k' : str) (v : Z) :
  d !! k' = Some v → add_token d k !! k' = Some v.
Proof.
  intros Hk'. unfold add_token. destruct (contains d k) eqn:E; [done|].
  apply contains_false in E. rewrite lookup_insert_ne; [done|congruence].
Qed.

Lemma add_token_in (d : dict) (k : str) : is_Some (add_token d k !! k).
Proof.
  unfold add_token. destruct (contains d k) eqn:E.
  - by apply contains_true.
  - rewrite lookup_insert_eq. eauto.
Qed.

Lemma add_token_contiguous (d : dict) (k : str) :
  contiguous d → contiguous (add_token d k).
Proof.
  intros Hd. unfold add_token. destruct (contains d k) eqn:E; [done|].
  apply contains_false in E. intros i.
  rewrite map_size_insert_None by done. split.
  - intros [k' Hk']. apply lookup_insert_Some in Hk' as [[_ <-]|[_ Hk']].
    + lia.
    + apply (contiguous_bound _ _ _ Hd) in Hk'. lia.
  - intros Hi. destruct (decide (i = Z.of_nat (size d))) as [->|Hne].
    + exists k. apply lookup_insert_eq.
    + destruct (proj2 (Hd i)) as [k' Hk']; [lia|].
      exists k'. rewrite lookup_insert_ne; [done|congruence].
Qed.

Lemma add_token_injective (d : dict) (k : str) :
  contiguous d → injective d → injective (add_token d k).
Proof.
  intros Hd Hinj. unfold add_token. destruct (contains d k) eqn:E; [done|].
  apply contains_false in E. intros k1 k2 v H1 H2.
  apply lookup_insert_Some in H1 as [[<- <-]|[Hk1 H1]];
    apply lookup_insert_Some in H2 as [[<- Hv]|[Hk2 H2]]; try done.
  - apply (contiguous_bound _ _ _ Hd) in H2. lia.
  - subst v. apply (contiguous_bound _ _ _ Hd) in H1. lia.
  - eauto.
Qed.

Lemma add_token_indexed (d : dict) (k : str) :
  indexed d → indexed (add_token d k).
Proof.
  intros [Hinj Hd].
  split; [by apply add_token_injective|by apply add_token_contiguous].
Qed.

Lemma foldl_add_token_indexed {A} (f : A → str) (l : list A) (d : dict) :
  indexed d → indexed (foldl (λ d x, add_token d (f x)) d l).
Proof.
  revert d. induction l as [|x l IH]; intros d Hd; [done|].
  cbn. by apply IH, add_token_indexed.
Qed.

Lemma foldl_add_token_lookup {A} (f : A → str) (l : list A) (d : dict) k v :
  d !! k = Some v → foldl (λ d x, add_token d (f x)) d l !! k = Some v.
Proof.
  revert d. induction l as [|x l IH]; intros d Hd; [done|].
  cbn. by apply IH, add_token_lookup.
Qed.

Lemma foldl_add_token_in {A} (f : A → str) (l : list A) (d : dict) (x : A) :
  x ∈ l → is_Some (foldl (λ d x, add_token d (f x)) d l !! f x).
Proof.
  revert d. induction l as [|y l IH]; intros d; [by intros ?%elem_of_nil|].
  intros [->|Hx]%elem_of_cons; cbn; [|by apply IH].
  destruct (add_token_in d (f y)) as [v Hv].
  exists v. by apply foldl_add_token_lookup.
Qed.

(** ** The closure of [get_processing_word] *)

Lemma getitem_Some (d : dict) (k : str) (v : Z) :
  d !! k = Some v → getitem d k = Ok v.
Proof. unfold getitem. by intros ->. Qed.

Lemma getitem_None (d : dict) (k : str) :
  d !! k = None → getitem d k = Raise (KeyError (KStr k)).
Proof. unfold getitem. by intros ->. Qed.

Lemma length_omap_filter {A B} (f : A → option B) (l : list A) :
  length (omap f l) = length (filter (λ x, is_Some (f x)) l).
Proof.
  induction l as [|x l IH]; [done|].
  cbn. unfold filter in *; cbn. destruct (f x) as [b|] eqn:Hx.
  - rewrite decide_True by eauto. cbn. by rewrite IH.
  - rewrite decide_False; [done|]. by intros [? ?].
Qed.

(** When the loop over the characters returns, it has appended the ids of
    the characters that are in the vocabulary, in order, and nothing for the
    other characters. *)
Lemma char_ids_loop_inv (vc : dict) (word : str) (acc ids : list Z) :
  char_ids_loop vc word acc = Ok ids →
  ids = acc ++ omap (λ c, vc !! [c]) word.
Proof.
  revert acc. induction word as [|c word IH]; intros acc; cbn.
  - intros [= <-]. by rewrite app_nil_r.
  - destruct (contains vc [c]) eqn:E.
    + apply contains_true in E as [v Hv]. rewrite Hv.
      destruct (getitem vc UNK) as [unk|]; cbn; [|done].
      intros ->%IH. unfold dict_get. rewrite Hv. cbn.
      by rewrite <- app_assoc.
    + apply contains_false in E. rewrite E. apply IH.
Qed.

Lemma char_ids_loop_ok (vc : dict) (word : str) (acc : list Z) :
  is_Some (vc !! UNK) →
  char_ids_loop vc word acc = Ok (acc ++ omap (λ c, vc !! [c]) word).
Proof.
  intros [unk Hunk]. revert acc.
  induction word as [|c word IH]; intros acc; cbn.
  - by rewrite app_nil_r.
  - destruct (contains vc [c]) eqn:E.
    + apply contains_true in E as [v Hv]. rewrite Hv.
      rewrite (getitem_Some _ _ _ Hunk). cbn. rewrite IH.
      unfold dict_get. rewrite Hv. cbn. by rewrite <- app_assoc.
    + apply contains_false in E. rewrite E. apply IH.
Qed.

(** Without [PAD] in the word vocabulary the closure raises, whatever the
    word: the innermost default [vocab_words[PAD]] is evaluated first. *)
Lemma get_processing_word_no_pad (vw : dict) (lc uc : bool) (w : str) :
  vw !! PAD = None →
  get_processing_word (Some vw) None lc uc w = Raise (KeyError (KStr PAD)).
Proof.
  intros Hpad. unfold get_processing_word. cbn.
  by rewrite (getitem_None _ _ Hpad).
Qed.

(** C1, as amended. With [PAD] in the word vocabulary (and [UNK] in the
    character vocabulary when character ids are asked for), the closure
    returns for every word [w], and its word id is [vocab_words[n]] for the
    normalized form [n] of [w] if [n] is in the vocabulary, otherwise
    [vocab_words[UNK]] if [UNK] is, otherwise [vocab_words[PAD]]; when the
    values of the vocabulary are exactly [0 .. len(vocab_words) - 1], that
    id is an index in this range. *)
Theorem get_processing_word_word_id
    (vw : dict) (vc : option dict) (lc uc : bool) (w : str) :
  is_Some (vw !! PAD) →
  (∀ cs, vc = Some cs → uc = true → is_Some (cs !! UNK)) →
  ∃ (r : processed) (wid : Z),
    get_processing_word (Some vw) vc lc uc w = Ok r ∧
    word_of r = TId wid ∧
    match vw !! normalized lc w with
    | Some v => wid = v
    | None =>
        match vw !! UNK with
        | Some u => wid = u
        | None => vw !! PAD = Some wid
        end
    end ∧
    (contiguous vw → 0 ≤ wid < Z.of_nat (size vw)).
Proof.
  intros [pad Hpad] Hvc.
  set (n := normalized lc w).
  set (wid := dict_get vw n (dict_get vw UNK pad)).
  assert (match vw !! n with
          | Some v => wid = v
          | None => match vw !! UNK with
                    | Some u => wid = u
                    | None => vw !! PAD = Some wid
                    end
          end) as Hwid.
  { unfold wid, dict_get. destruct (vw !! n); [done|].
    by destruct (vw !! UNK). }
  assert (∃ k, vw !! k = Some wid) as [k Hk].
  { destruct (vw !! n) eqn:Hn; [exists n; congruence|].
    destruct (vw !! UNK) eqn:Hu; [exists UNK; congruence|by exists PAD]. }
  assert (∃ r, get_processing_word (Some vw) vc lc uc w = Ok r
               ∧ word_of r = TId wid) as (r & Hr & Hw).
  { unfold get_processing_word. fold n.
    destruct vc as [cs|]; [destruct uc|]; cbn.
    - rewrite char_ids_loop_ok by eauto. cbn.
      rewrite (getitem_Some _ _ _ Hpad). cbn. eauto.
    - rewrite (getitem_Some _ _ _ Hpad). cbn. eauto.
    - rewrite (getitem_Some _ _ _ Hpad). cbn. eauto. }
  exists r, wid. split; [done|]. split; [done|]. split; [done|].
  intros Hc. by apply (contiguous_bound _ _ _ Hc) in Hk.
Qed.

(** ** [WordPreprocessor.fit] *)

Lemma fit_word_inv (self : WordPreprocessor) (st : dict * dict) (w : str) :
  fit_inv st → fit_inv (fit_word self st w).
Proof.
  destruct st as [words chars]. intros [[Hw Hwi] [Hc Hci]].
  unfold fit_word.
  assert (add_token words (_normalize_num self (_lower self w)) !! UNK = Some 0
          ∧ indexed (add_token words (_normalize_num self (_lower self w))))
    as Hwords.
  { split; [by apply add_token_lookup|by apply add_token_indexed]. }
  destruct (char_feature self); cbn; split; try done.
  split.
  - by apply (foldl_add_token_lookup (λ c, [c])).
  - by apply (foldl_add_token_indexed (λ c, [c])).
Qed.

Lemma foldl_fit_word_inv (self : WordPreprocessor) (l : list str) st :
  fit_inv st → fit_inv (foldl (fit_word self) st l).
Proof.
  revert st. induction l as [|w l IH]; intros st Hst; [done|].
  cbn. by apply IH, fit_word_inv.
Qed.

Lemma fit_vocabs (self : WordPreprocessor) (X y : list (list str)) :
  ∃ words chars : dict,
    fit self X y =
      {| lowercase := lowercase self;
         num_norm := num_norm self;
         char_feature := char_feature self;
         vocab_word := Some words;
         vocab_char := Some chars;
         vocab_tag := Some (foldl add_token ∅ (concat y));
         vocab_init := vocab_init self |} ∧
    fit_inv (words, chars).
Proof.
  unfold fit.
  pose proof (foldl_fit_word_inv self
    (set_iter (list_to_set (concat X) ∪ list_to_set (vocab_init self)))
    ({[UNK := 0]}, {[UNK := 0]})) as H.
  destruct (foldl _ _ _) as [words chars].
  exists words, chars. split; [done|]. apply H.
  split; (split; [apply lookup_singleton_eq|]);
    (split; [apply injective_singleton|apply contiguous_singleton]).
Qed.

Lemma foldl_fit_word_lookup (self : WordPreprocessor) (l : list str) st k v :
  st.1 !! k = Some v → (foldl (fit_word self) st l).1 !! k = Some v.
Proof.
  revert st. induction l as [|w l IH]; intros [words chars] Hk; [done|].
  cbn [foldl]. apply IH. unfold fit_word.
  destruct (negb (char_feature self)); by apply add_token_lookup.
Qed.

Lemma foldl_fit_word_covers (self : WordPreprocessor) (l : list str) st w :
  w ∈ l → is_Some ((foldl (fit_word self) st l).1 !! norm self w).
Proof.
  revert st. induction l as [|w' l IH]; intros [words chars].
  - by intros ?%elem_of_nil.
  - intros [->|Hw]%elem_of_cons; cbn [foldl]; [|by apply IH].
    destruct (add_token_in words (norm self w')) as [v Hv].
    exists v. apply foldl_fit_word_lookup. unfold fit_word.
    by destruct (negb (char_feature self)).
Qed.

(** Whatever the order in which the set of words is enumerated, every word
    of [X] is in the word vocabulary after [fit], in its normalized form. *)
Lemma fit_covers_words (self : WordPreprocessor) (X y : list (list str))
    (sent : list str) (w : str) :
  sent ∈ X → w ∈ sent →
  ∃ words, vocab_word (fit self X y) = Some words
           ∧ is_Some (words !! norm self w).
Proof.
  intros Hsent Hw. unfold fit.
  pose proof (foldl_fit_word_covers self
    (set_iter (list_to_set (concat X) ∪ list_to_set (vocab_init self)))
    ({[UNK := 0]}, {[UNK := 0]}) w) as H.
  destruct (foldl _ _ _) as [words chars].
  exists words. split; [done|]. apply H.
  rewrite set_iter_elements, elem_of_elements, elem_of_union.
  left. apply elem_of_list_to_set, elem_of_concat. eauto.
Qed.

Lemma fit_tags_indexed (y : list (list str)) :
  indexed (foldl add_token ∅ (concat y)).
Proof.
  apply (foldl_add_token_indexed id).
  split; [apply injective_empty|apply contiguous_empty].
Qed.

Lemma fit_tags_in (y : list (list str)) (t : str) :
  t ∈ concat y → is_Some (foldl add_token ∅ (concat y) !! t).
Proof. apply (foldl_add_token_in id). Qed.

(** C6. After [fit], on any input, the word and character vocabularies map
    [UNK] to 0, and each of the word, character and tag vocabularies is
    injective with exactly the values [0 .. size - 1]. *)
Theorem fit_indexes_vocabularies
    (self : WordPreprocessor) (X y : list (list str)) :
  ∃ words chars tags : dict,
    vocab_word (fit self X y) = Some words ∧
    vocab_char (fit self X y) = Some chars ∧
    vocab_tag (fit self X y) = Some tags ∧
    words !! UNK = Some 0 ∧ chars !! UNK = Some 0 ∧
    (injective words ∧ contiguous words) ∧
    (injective chars ∧ contiguous chars) ∧
    (injective tags ∧ contiguous tags).
Proof.
  destruct (fit_vocabs self X y) as (words & chars & -> & [[Hw Hwi] [Hc Hci]]).
  exists words, chars, (foldl add_token ∅ (concat y)). cbn in *.
  repeat (split; [done|]). apply fit_tags_indexed.
Qed.

(** ** [WordPreprocessor.transform] *)

Lemma mapM_Raise_inv {A B} (f : A → result B) (l : list A) (e : exn) :
  mapM f l = Raise e → ∃ x, x ∈ l ∧ f x = Raise e.
Proof.
  induction l as [|x l IH]; cbn; [done|].
  destruct (f x) as [b|e'] eqn:Hx; cbn.
  - destruct (mapM f l) as [k|e']; cbn; [done|].
    intros [= <-]. destruct IH as (z & Hz & Hr); [done|].
    exists z. split; [by right|done].
  - intros [= <-]. exists x. split; [by left|done].
Qed.

Lemma mapM_fmap_Ok {A B} (f : B → result A) (g : A → B) (l : list A) :
  (∀ x, x ∈ l → f (g x) = Ok x) → mapM f (g <$> l) = Ok l.
Proof.
  induction l as [|x l IH]; intros Hf; [done|].
  cbn. rewrite Hf by left. cbn. rewrite IH; [done|].
  intros z Hz. apply Hf. by right.
Qed.

Section transform_with_vocabularies.

(** A preprocessor whose word and character vocabularies hold [UNK]. *)
Variable self : WordPreprocessor.
Variables vw vc vt : dict.
Variables wunk cunk : Z.
Hypothesis Hvw : vocab_word self = Some vw.
Hypothesis Hvc : vocab_char self = Some vc.
Hypothesis Hvt : vocab_tag self = Some vt.
Hypothesis Hwunk : vw !! UNK = Some wunk.
Hypothesis Hcunk : vc !! UNK = Some cunk.

Lemma _get_char_ids_ok (w : str) :
  _get_char_ids self w = Ok (char_ids_in vc cunk w).
Proof.
  unfold _get_char_ids, char_ids_in. apply mapM_Ok_fmap. intros c _.
  rewrite Hvc, (getitem_Some _ _ _ Hcunk). done.
Qed.

Lemma transform_sent_ok (sent : list str) word_ids char_word_ids :
  transform_sent self sent word_ids char_word_ids =
    Ok (word_ids ++ ((λ w, word_id_in vw wunk (norm self w)) <$> sent),
        if char_feature self
        then char_word_ids
             ++ ((λ w, char_ids_in vc cunk (norm self w)) <$> sent)
        else char_word_ids).
Proof.
  revert word_ids char_word_ids.
  induction sent as [|w sent IH]; intros word_ids char_word_ids; cbn.
  - rewrite !app_nil_r. by destruct (char_feature self).
  - rewrite Hvw. fold (norm self w).
    assert ((if contains vw (norm self w)
             then getitem vw (norm self w) else getitem vw UNK)
            = Ok (word_id_in vw wunk (norm self w))) as ->.
    { unfold word_id_in. destruct (contains vw (norm self w)) eqn:E.
      - apply contains_true in E as [v Hv]. rewrite Hv.
        by apply getitem_Some.
      - apply contains_false in E. rewrite E. by apply getitem_Some. }
    cbn. destruct (char_feature self) eqn:Hcf.
    + rewrite _get_char_ids_ok. cbn. rewrite IH, <- !app_assoc. done.
    + rewrite IH, <- !app_assoc. done.
Qed.

Lemma transform_sents (X y : list (list str)) :
  transform self X y =
    (y ← mapM (λ sent, mapM (λ t, getitem vt t) sent) y;
     Ok (features_in self vw vc wunk cunk <$> X, y)).
Proof.
  unfold transform.
  rewrite (mapM_Ok_fmap _ (features_in self vw vc wunk cunk)).
  - cbn. rewrite Hvt. done.
  - intros sent _. rewrite transform_sent_ok. cbn. unfold features_in.
    by destruct (char_feature self).
Qed.

Lemma transform_known_labels (X y : list (list str)) :
  (∀ sent t, sent ∈ y → t ∈ sent → is_Some (vt !! t)) →
  transform self X y =
    Ok (features_in self vw vc wunk cunk <$> X,
        (λ sent : list str, (λ t, default 0 (vt !! t)) <$> sent) <$> y).
Proof.
  intros Hy. rewrite transform_sents.
  rewrite (mapM_Ok_fmap _
    (λ sent : list str, (λ t, default 0 (vt !! t)) <$> sent));
    [done|].
  intros sent Hsent. apply mapM_Ok_fmap. intros t Ht.
  destruct (Hy sent t Hsent Ht) as [v Hv]. rewrite Hv.
  by apply getitem_Some.
Qed.

Lemma transform_raises_iff (X y : list (list str)) :
  raises (transform self X y) ↔
  ∃ sent t, sent ∈ y ∧ t ∈ sent ∧ vt !! t = None.
Proof.
  rewrite transform_sents. split.
  - intros [e He].
    destruct (mapM _ y) as [ids|e'] eqn:Hy; cbn in He; [done|].
    apply mapM_Raise_inv in Hy as (sent & Hsent & Hy).
    apply mapM_Raise_inv in Hy as (t & Ht & Hy).
    exists sent, t. split; [done|]. split; [done|].
    unfold getitem in Hy. by destruct (vt !! t).
  - intros (sent & t & Hsent & Ht & Hnone).
    assert (raises (mapM (λ sent, mapM (λ t, getitem vt t) sent) y))
      as [e He].
    { apply mapM_raises. exists sent. split; [done|].
      apply mapM_raises. exists t. split; [done|].
      rewrite (getitem_None _ _ Hnone). by eexists. }
    rewrite He. by exists e.
Qed.

Lemma transform_Raise_inv (X y : list (list str)) (e : exn) :
  transform self X y = Raise e →
  ∃ t, e = KeyError (KStr t) ∧ t ∈ concat y ∧ vt !! t = None.
Proof.
  rewrite transform_sents. intros He.
  destruct (mapM _ y) as [ids|e'] eqn:Hy; cbn in He; [done|].
  injection He as ->.
  apply mapM_Raise_inv in Hy as (sent & Hsent & Hy).
  apply mapM_Raise_inv in Hy as (t & Ht & Hy).
  unfold getitem in Hy. destruct (vt !! t) eqn:Hv; [done|].
  injection Hy as <-. exists t. split; [done|]. split; [|done].
  apply elem_of_concat. eauto.
Qed.

End transform_with_vocabularies.

Lemma fit_norm (self : WordPreprocessor) (X y : list (list str)) (w : str) :
  norm (fit self X y) w = norm self w.
Proof. by destruct (fit_vocabs self X y) as (words & chars & -> & _). Qed.

Lemma word_ids_of_features_in (self : WordPreprocessor) (vw vc : dict)
    (wunk cunk : Z) (sent : list str) :
  word_ids_of (features_in self vw vc wunk cunk sent)
  = (λ w, word_id_in vw wunk (norm self w)) <$> sent.
Proof. unfold features_in. by destruct (char_feature self). Qed.

(** C4. After [fit], [transform] raises for no word, a word outside the
    word vocabulary getting the id of [UNK]; it raises exactly when some
    label of the given label sequences is not in the tag vocabulary built
    by [fit], and then with a [KeyError] for such a label. *)
Theorem transform_raises_iff_unknown_label
    (self : WordPreprocessor) (X0 y0 X y : list (list str)) :
  let p := fit self X0 y0 in
  ∃ words tags : dict,
    vocab_word p = Some words ∧ vocab_tag p = Some tags ∧
    (∃ (sents : list features) (unk : Z),
       transform p X [] = Ok (sents, []) ∧
       words !! UNK = Some unk ∧
       word_ids_of <$> sents =
         (λ sent : list str,
            (λ w, default unk (words !! norm p w)) <$> sent) <$> X) ∧
    (raises (transform p X y) ↔
       ∃ sent t, sent ∈ y ∧ t ∈ sent ∧ tags !! t = None) ∧
    (∀ e, transform p X y = Raise e →
       ∃ t, e = KeyError (KStr t) ∧ t ∈ concat y ∧ tags !! t = None).
Proof.
  intros p.
  destruct (fit_vocabs self X0 y0)
    as (words & chars & Hp & [[Hw Hwi] [Hc Hci]]).
  cbn in Hw, Hc.
  assert (vocab_word p = Some words) as Hvw by (unfold p; by rewrite Hp).
  assert (vocab_char p = Some chars) as Hvc by (unfold p; by rewrite Hp).
  assert (vocab_tag p = Some (foldl add_token ∅ (concat y0))) as Hvt
    by (unfold p; by rewrite Hp).
  exists words, (foldl add_token ∅ (concat y0)).
  split; [done|]. split; [done|]. split; [|split].
  - exists (features_in p words chars 0 0 <$> X), 0.
    split; [|split; [done|]].
    + rewrite (transform_known_labels p words chars _ 0 0) by
        (done || by intros ? ? []%elem_of_nil).
      done.
    + rewrite <- list_fmap_compose. apply list_fmap_ext. intros i sent _.
      cbn. apply word_ids_of_features_in.
  - by apply (transform_raises_iff p words chars _ 0 0).
  - by apply (transform_Raise_inv p words chars _ 0 0).
Qed.

(** ** Characters outside the character vocabulary *)

(** C3, as amended. The character ids the closure of
    [get_processing_word] returns are the ids of the characters of the
    normalized word that are in the character vocabulary, the other
    characters being left out, so there are as many ids as such characters.
    [WordPreprocessor.transform], through [_get_char_ids], instead puts the
    id of [UNK] in the place of a character that is not in the vocabulary,
    so its list has one id for each character of the normalized word. *)
Theorem char_ids_for_unknown_characters
    (vw : option dict) (vc : dict) (lc : bool) (w : str)
    (ids : list Z) (wid : token)
    (self : WordPreprocessor) (X0 y0 : list (list str)) (w' : str) :
  get_processing_word vw (Some vc) lc true w = Ok (CharsWord ids wid) →
  char_feature self = true →
  (ids = omap (λ c, vc !! [c]) (normalized lc w) ∧
   length ids
   = length (filter (λ c, is_Some (vc !! [c])) (normalized lc w))) ∧
  let p := fit self X0 y0 in
  ∃ (chars : dict) (unk word_id : Z),
    vocab_char p = Some chars ∧ chars !! UNK = Some unk ∧
    transform p [[w']] [] =
      Ok ([CharsWords [(λ c, default unk (chars !! [c])) <$> norm p w']
                      [word_id]], []) ∧
    length ((λ c, default unk (chars !! [c])) <$> norm p w')
    = length (norm p w').
Proof.
  intros Hf Hcf. split.
  - assert (ids = omap (λ c, vc !! [c]) (normalized lc w)) as ->.
    { unfold get_processing_word in Hf. cbn in Hf.
      destruct (char_ids_loop vc _ []) as [ids'|] eqn:Hloop; [|done].
      apply char_ids_loop_inv in Hloop. cbn in Hloop, Hf.
      destruct vw as [ws|]; cbn in Hf.
      - destruct (getitem ws PAD); cbn in Hf; [|done]. congruence.
      - congruence. }
    split; [done|]. apply length_omap_filter.
  - intros p.
    destruct (fit_vocabs self X0 y0)
      as (words & chars & Hp & [[Hw Hwi] [Hc Hci]]).
    cbn in Hw, Hc.
    exists chars, 0, (word_id_in words 0 (norm p w')).
    split; [unfold p; by rewrite Hp|]. split; [done|].
    split; [|apply length_fmap].
    rewrite (transform_known_labels p words chars
               (foldl add_token ∅ (concat y0)) 0 0).
    + unfold features_in.
      replace (char_feature p) with true by (unfold p; by rewrite Hp).
      done.
    + unfold p; by rewrite Hp.
    + unfold p; by rewrite Hp.
    + unfold p; by rewrite Hp.
    + done.
    + done.
    + by intros ? ? []%elem_of_nil.
Qed.

(** The closure does return character ids when [UNK] is in the character
    vocabulary and [PAD] in the word vocabulary, if one is given. *)
Lemma get_processing_word_chars_ok
    (vw : option dict) (vc : dict) (lc : bool) (w : str) :
  is_Some (vc !! UNK) →
  (∀ ws, vw = Some ws → is_Some (ws !! PAD)) →
  ∃ wid, get_processing_word vw (Some vc) lc true w
         = Ok (CharsWord (omap (λ c, vc !! [c]) (normalized lc w)) wid).
Proof.
  intros Hunk Hpad. unfold get_processing_word. cbn.
  rewrite char_ids_loop_ok by done. cbn.
  destruct vw as [ws|]; cbn; [|eauto].
  destruct (Hpad ws eq_refl) as [pad Hp].
  rewrite (getitem_Some _ _ _ Hp). cbn. eauto.
Qed.

(** ** [inverse_transform] *)

Lemma invert_lookup_notin (l : list (str * Z)) (acc : gmap Z str) (i : Z) :
  i ∉ l.*2 →
  foldl (λ acc '(t, i), <[i := t]> acc) acc l !! i = acc !! i.
Proof.
  revert acc. induction l as [|[t j] l IH]; intros acc Hi; [done|].
  cbn in *. apply not_elem_of_cons in Hi as [Hij Hi].
  rewrite IH by done. by rewrite lookup_insert_ne.
Qed.

Lemma invert_lookup_in (l : list (str * Z)) (acc : gmap Z str) t (i : Z) :
  NoDup l.*2 → (t, i) ∈ l →
  foldl (λ acc '(t, i), <[i := t]> acc) acc l !! i = Some t.
Proof.
  revert acc. induction l as [|[t' j] l IH]; intros acc Hnd Hin.
  - by apply elem_of_nil in Hin.
  - cbn in *. apply NoDup_cons in Hnd as [Hj Hnd].
    apply elem_of_cons in Hin as [[= -> ->]|Hin].
    + rewrite invert_lookup_notin by done. apply lookup_insert_eq.
    + by apply IH.
Qed.

Lemma indice_tag_lookup (vt : dict) (t : str) (i : Z) :
  injective vt → vt !! t = Some i → indice_tag vt !! i = Some t.
Proof.
  intros Hinj Ht. unfold indice_tag. apply invert_lookup_in.
  - apply NoDup_fmap_2_strong; [|apply NoDup_map_to_list].
    intros [t1 i1] [t2 i2] H1%elem_of_map_to_list H2%elem_of_map_to_list.
    cbn. intros <-. f_equal. by apply (Hinj t1 t2 i1).
  - by apply elem_of_map_to_list.
Qed.

(** C7. After [fit(X, y)], [transform(X, y)] returns, with one sequence of
    tag ids for each label sequence of [y], and [inverse_transform] of the
    ids of a label sequence is that label sequence. *)
Theorem fit_transform_inverse_transform
    (self : WordPreprocessor) (X y : list (list str)) :
  let p := fit self X y in
  ∃ (sents : list features) (ids : list (list Z)),
    transform p X y = Ok (sents, ids) ∧
    length ids = length y ∧
    ∀ (i : nat) (s : list str), y !! i = Some s →
      ∃ ids_i, ids !! i = Some ids_i ∧ inverse_transform p ids_i = Ok s.
Proof.
  intros p.
  destruct (fit_vocabs self X y)
    as (words & chars & Hp & [[Hw Hwi] [Hc Hci]]).
  cbn in Hw, Hc.
  set (tags := foldl add_token ∅ (concat y)) in *.
  assert (vocab_tag p = Some tags) as Hvt by (unfold p; by rewrite Hp).
  assert (∀ sent t, sent ∈ y → t ∈ sent → is_Some (tags !! t)) as Hy.
  { intros sent t Hsent Ht. apply fit_tags_in, elem_of_concat. eauto. }
  eexists _, _. split; [|split].
  - apply (transform_known_labels p words chars tags 0 0); try done.
    all: unfold p; by rewrite Hp.
  - apply length_fmap.
  - intros i s Hs. eexists. split.
    + by rewrite list_lookup_fmap, Hs.
    + unfold inverse_transform. rewrite Hvt. cbn.
      apply mapM_fmap_Ok. intros t Ht.
      destruct (Hy s t) as [v Hv]; [by eapply list_elem_of_lookup_2|done|].
      rewrite Hv. cbn.
      rewrite (indice_tag_lookup tags t v); [done| |done].
      apply fit_tags_indexed.
Qed.

(** ** Padding *)

Lemma length_zeros (n : Z) : length (zeros n) = Z.to_nat n.
Proof. apply length_replicate. Qed.

Lemma slice_from_all {A} (l : list A) (n : Z) :
  0 < n → len l ≤ n → slice_from l (- n) = l.
Proof.
  intros Hn Hl. unfold slice_from.
  destruct (Z.ltb_spec (- n) 0); [|lia].
  by replace (Z.to_nat (len l + - n)) with 0%nat by lia.
Qed.

Lemma slice_from_last {A} (l : list A) (n : Z) :
  0 < n → n ≤ len l →
  slice_from l (- n) = drop (length l - Z.to_nat n) l.
Proof.
  intros Hn Hl. unfold slice_from, len in *.
  destruct (Z.ltb_spec (- n) 0); [|lia]. f_equal. lia.
Qed.

Lemma slice_to_first {A} (l : list A) (n : Z) :
  0 ≤ n → slice_to l n = take (Z.to_nat n) l.
Proof. intros Hn. unfold slice_to. by destruct (Z.ltb_spec n 0); [lia|]. Qed.

(** A sequence shorter than [maxlen] is kept and followed by zeros. *)
Lemma pad_row_shorter (maxlen : Z) (truncating : side) (s : list Z) :
  len s < maxlen →
  pad_row maxlen Post truncating s = Ok (s ++ zeros (maxlen - len s)).
Proof.
  intros Hs. unfold pad_row. case_bool_decide as Hnil.
  - subst s. cbn. by rewrite Z.sub_0_r.
  - assert (0 < maxlen) by (unfold len in Hs; lia).
    assert (match truncating with
            | Pre => slice_from s (- maxlen)
            | Post => slice_to s maxlen
            end = s) as ->.
    { destruct truncating.
      - apply slice_from_all; lia.
      - rewrite slice_to_first by lia. apply take_ge.
        unfold len in Hs. lia. }
    by destruct (Z.leb_spec (len s) maxlen); [|lia].
Qed.

(** With the default [truncating='pre'], what is kept of a sequence of at
    least [maxlen] ids is its last [maxlen] ids. *)
Lemma pad_row_longer_pre (maxlen : Z) (s : list Z) :
  0 < maxlen → maxlen ≤ len s →
  pad_row maxlen Post Pre s = Ok (drop (length s - Z.to_nat maxlen) s).
Proof.
  intros Hm Hs. unfold pad_row. case_bool_decide as Hnil.
  - subst s. unfold len in Hs. cbn in Hs. lia.
  - rewrite slice_from_last by done.
    assert (len (drop (length s - Z.to_nat maxlen) s) = maxlen) as Hlen.
    { unfold len in *. rewrite length_drop. lia. }
    rewrite Hlen, Z.leb_refl, Z.sub_diag. cbn. by rewrite app_nil_r.
Qed.

Lemma pad_words_shorter (xs : list (list Z)) (cfg : config) :
  0 ≤ num_steps cfg →
  (∀ s, s ∈ xs → len s < num_steps cfg) →
  pad_words xs cfg = Ok ((λ s, s ++ zeros (num_steps cfg - len s)) <$> xs).
Proof.
  intros Hn Hxs. unfold pad_words, pad_sequences.
  destruct (Z.ltb_spec (num_steps cfg) 0); [lia|].
  apply mapM_Ok_fmap. intros s Hs. by apply pad_row_shorter, Hxs.
Qed.

Lemma pad_words_longer (xs : list (list Z)) (cfg : config) :
  0 < num_steps cfg →
  (∀ s, s ∈ xs → num_steps cfg ≤ len s) →
  pad_words xs cfg
  = Ok ((λ s, drop (length s - Z.to_nat (num_steps cfg)) s) <$> xs).
Proof.
  intros Hn Hxs. unfold pad_words, pad_sequences.
  destruct (Z.ltb_spec (num_steps cfg) 0); [lia|].
  apply mapM_Ok_fmap. intros s Hs. by apply pad_row_longer_pre, Hxs.
Qed.


Lemma pad_word_shorter (word : list Z) (mwl : Z) :
  len word < mwl →
  slice_to (word ++ zeros (mwl - len word)) mwl
  = word ++ zeros (mwl - len word).
Proof.
  intros Hw. unfold len in *. rewrite slice_to_first by lia.
  apply take_ge. rewrite length_app, length_zeros. lia.
Qed.

Lemma pad_word_longer (word : list Z) (mwl : Z) :
  0 ≤ mwl → mwl ≤ len word →
  slice_to (word ++ zeros (mwl - len word)) mwl = take (Z.to_nat mwl) word.
Proof.
  intros Hm Hw. unfold len in *. rewrite slice_to_first by lia.
  unfold zeros.
  replace (Z.to_nat (mwl - Z.of_nat (length word))) with 0%nat by lia.
  cbn. by rewrite app_nil_r.
Qed.

(** C2, at the input where the code and the claim part. A sentence of three
    ids padded to [num_steps = 2]: [pad_words] returns its last two ids,
    where the claim expects the first two; [pad_word_chars] keeps the first
    two. *)
Theorem pad_words_keeps_last_ids :
  pad_words [[1; 2; 3]] (Config 2 2) = Ok [[2; 3]] ∧
  pad_word_chars [[1; 2; 3]] 2 = [[1; 2]].
Proof. split; reflexivity. Qed.

(** ** One-hot labels *)

Lemma fmap_const_zero {A} (g : A → Z) (l : list A) :
  (∀ x, x ∈ l → g x = 0) → g <$> l = replicate (length l) 0.
Proof.
  induction l as [|x l IH]; intros Hg; [done|].
  cbn. rewrite Hg by left. f_equal. apply IH. intros z Hz. apply Hg. by right.
Qed.

Lemma one_hot_zero (nc : Z) : 0 < nc → one_hot nc 0 = 1 :: zeros (nc - 1).
Proof.
  intros Hnc. unfold one_hot. rewrite seqZ_cons by done. cbn. f_equal.
  rewrite (fmap_const_zero _ (seqZ (Z.succ 0) (Z.pred nc))).
  - rewrite length_seqZ. unfold zeros. f_equal; lia.
  - intros k [Hk _]%elem_of_seqZ. by destruct (Z.eqb_spec k 0); [lia|].
Qed.

Lemma vec_sum_zeros (n : Z) : vec_sum (zeros n) = 0.
Proof.
  unfold zeros. induction (Z.to_nat n) as [|k IH]; [done|].
  cbn. unfold vec_sum in IH. by rewrite IH.
Qed.

Lemma vec_sum_one_hot_zero (nc : Z) : 0 < nc → vec_sum (one_hot nc 0) = 1.
Proof.
  intros Hnc. rewrite one_hot_zero by done.
  change (1 + vec_sum (zeros (nc - 1)) = 1). by rewrite vec_sum_zeros.
Qed.

Lemma mapM_insert_same {A B} (f : A → result B) (l : list A) (i : nat) x x' :
  l !! i = Some x → f x' = f x → mapM f (<[i := x']> l) = mapM f l.
Proof.
  revert i. induction l as [|z l IH]; intros [|i] Hi Hf; try done.
  - injection Hi as ->.
    change (mapM f (x' :: l) = mapM f (x :: l)).
    rewrite !mapM_cons. by rewrite Hf.
  - change (mapM f (z :: <[i := x']> l) = mapM f (z :: l)).
    rewrite !mapM_cons. by rewrite (IH i).
Qed.

(** A row of class ids that [to_categorical] accepts has, wherever the id
    is 0, the vector with its 1 at index 0. *)
Lemma to_categorical_zero (y : list Z) (ntags : Z) (rows : list (list Z))
    (j : nat) :
  to_categorical y ntags = Ok rows → y !! j = Some 0 →
  length rows = length y ∧
  ∃ nc, 0 < nc ∧
    ∀ j', y !! j' = Some 0 → rows !! j' = Some (one_hot nc 0).
Proof.
  unfold to_categorical. intros Hrows Hj.
  destruct (if ntags =? 0 then _ else _) as [nc|] eqn:Hnc; cbn in Hrows;
    [|done].
  destruct (Z.ltb_spec nc 0); [done|].
  apply mapM_Ok_inv in Hrows. split.
  { symmetry. by eapply Forall2_length. }
  exists nc.
  assert (0 < nc) as Hpos.
  { destruct (Forall2_lookup_l _ _ _ _ _ Hrows Hj) as (v & _ & Hv).
    destruct (Z.ltb_spec 0 nc); [done|].
    by rewrite andb_false_r in Hv. }
  split; [done|]. intros j' Hj'.
  destruct (Forall2_lookup_l _ _ _ _ _ Hrows Hj') as (v & -> & Hv).
  destruct (Z.leb_spec (- nc) 0); [|lia].
  destruct (Z.ltb_spec 0 nc); [|lia].
  cbn in Hv. rewrite Z.mod_0_l in Hv by lia. congruence.
Qed.

(** C10. When [to_onehot] returns and a label sequence is shorter than
    [num_steps], each of its padded positions holds the one-hot vector with
    its 1 at index 0, which sums to 1; the output is the one obtained when
    the sequence is instead completed with the tag id 0 as labels. *)
Theorem to_onehot_padding_is_tag_zero
    (ys : list (list Z)) (cfg : config) (ntags : Z)
    (out : list (list (list Z))) (i : nat) (y : list Z) :
  to_onehot ys cfg ntags = Ok out →
  ys !! i = Some y →
  len y < num_steps cfg →
  ∃ (rows : list (list Z)) (nc : Z),
    out !! i = Some rows ∧
    len rows = num_steps cfg ∧
    0 < nc ∧
    (∀ j : nat, (length y ≤ j)%nat → Z.of_nat j < num_steps cfg →
       rows !! j = Some (one_hot nc 0)) ∧
    one_hot nc 0 = 1 :: zeros (nc - 1) ∧
    vec_sum (one_hot nc 0) = 1 ∧
    to_onehot (<[i := y ++ zeros (num_steps cfg - len y)]> ys) cfg ntags
    = Ok out.
Proof.
  intros Hout Hi Hlen. unfold to_onehot, pad_sequences in *.
  destruct (Z.ltb_spec (num_steps cfg) 0); [done|].
  rewrite (mapM_insert_same _ ys i y); [|done|].
  2:{ rewrite (pad_row_shorter _ _ y) by done.
      assert (length (y ++ zeros (num_steps cfg - len y))
              = Z.to_nat (num_steps cfg)) as Hfull.
      { rewrite length_app, length_zeros. unfold len in *. lia. }
      rewrite pad_row_longer_pre; unfold len in *; rewrite ?Hfull; try lia.
      by rewrite Nat.sub_diag. }
  destruct (mapM _ ys) as [ys'|] eqn:Hys; cbn in Hout; [|done].
  apply mapM_Ok_inv in Hys.
  destruct (Forall2_lookup_l _ _ _ _ _ Hys Hi) as (y' & Hy' & Hpad).
  rewrite pad_row_shorter in Hpad by done. injection Hpad as <-.
  pose proof Hout as Hout'. apply mapM_Ok_inv in Hout'.
  destruct (Forall2_lookup_l _ _ _ _ _ Hout' Hy') as (rows & Hrows & Hcat).
  assert (∀ j : nat, (length y ≤ j)%nat → Z.of_nat j < num_steps cfg →
            (y ++ zeros (num_steps cfg - len y)) !! j = Some 0) as Hzero.
  { intros j Hj1 Hj2. rewrite lookup_app_r by done.
    apply lookup_replicate_2. unfold len in *. lia. }
  destruct (to_categorical_zero _ _ _ (length y) Hcat) as (Hl & nc & Hnc & Hz).
  { apply Hzero; unfold len in *; lia. }
  exists rows, nc. split; [done|]. split.
  { unfold len in *. rewrite Hl, length_app, length_zeros. lia. }
  split; [done|]. split; [by intros j ? ?; apply Hz, Hzero|].
  split; [by apply one_hot_zero|]. split; [by apply vec_sum_one_hot_zero|].
  done.
Qed.

(** [to_onehot] returns when the labels are tag ids below [ntags]. *)
Lemma to_onehot_returns (ys : list (list Z)) (cfg : config) (ntags : Z) :
  0 < num_steps cfg → 0 < ntags →
  (∀ y l, y ∈ ys → l ∈ y → 0 ≤ l < ntags) →
  ∃ out, to_onehot ys cfg ntags = Ok out.
Proof.
  intros Hn Hnt Hys. unfold to_onehot, pad_sequences.
  destruct (Z.ltb_spec (num_steps cfg) 0); [lia|].
  destruct (mapM _ ys) as [ys'|e] eqn:Hpad; cbn.
  - destruct (result_cases (mapM (λ y, to_categorical y ntags) ys'))
      as [[out Hout]|Hr]; [eauto|exfalso].
    apply mapM_raises in Hr as (y' & Hy' & [e He]).
    apply mapM_Ok_inv in Hpad.
    apply list_elem_of_lookup in Hy' as [i Hi].
    destruct (Forall2_lookup_r _ _ _ _ _ Hpad Hi) as (y & Hy & Hrow).
    assert (∀ l, l ∈ y' → 0 ≤ l < ntags) as Hy'.
    { intros l Hl. unfold pad_row in Hrow.
      assert (∀ l, l ∈ y → 0 ≤ l < ntags) as Hyl.
      { intros l' Hl'. eapply Hys; [|done]. by eapply list_elem_of_lookup_2. }
      assert (∀ l, l ∈ zeros (num_steps cfg) → 0 ≤ l < ntags) as Hzl.
      { intros l' [-> _]%elem_of_replicate. lia. }
      case_bool_decide; [injection Hrow as <-; by apply Hzl|].
      destruct (Z.leb_spec (len (slice_from y (- num_steps cfg)))
                  (num_steps cfg)).
      - injection Hrow as <-. apply elem_of_app in Hl as [Hl|Hl].
        + apply Hyl. unfold slice_from in Hl. by eapply subseteq_drop.
        + apply elem_of_replicate in Hl as [-> _]. lia.
      - destruct (len _ =? 1); [|done]. injection Hrow as <-. by apply Hzl. }
    unfold to_categorical in He.
    destruct (Z.eqb_spec ntags 0); [lia|]. cbn in He.
    destruct (Z.ltb_spec ntags 0); [lia|].
    apply mapM_Raise_inv in He as (l & Hl & He).
    apply Hy' in Hl.
    destruct (Z.leb_spec (- ntags) l); [|lia].
    by destruct (Z.ltb_spec l ntags); [|lia].
  - exfalso. apply mapM_Raise_inv in Hpad as (y & Hy & Hrow).
    unfold pad_row in Hrow. case_bool_decide; [done|].
    destruct (Z.leb_spec (len (slice_from y (- num_steps cfg)))
                (num_steps cfg)) as [|Hgt]; [done|].
    unfold slice_from, len in Hgt.
    destruct (Z.ltb_spec (- num_steps cfg) 0); [|lia].
    rewrite length_drop in Hgt. lia.
Qed.

(** ** Padding the words of a sentence *)

(** What [pad_words1] does to the store: the list it is given is extended
    in place, the result is a new list, and no other list changes. *)
Lemma pad_words1_store (words : loc) (mwl msl : Z) (h : heap)
    (ws : list (list Z)) :
  h !! words = Some ws →
  let padding := replicate (Z.to_nat (msl - len ws)) (zeros mwl) in
  ∃ (r : loc) (h' : heap),
    pad_words1 words mwl msl h = Some (r, h') ∧
    h !! r = None ∧
    h' !! words = Some (ws ++ padding) ∧
    h' !! r = Some (slice_to (ws ++ padding) msl) ∧
    ∀ l, l ≠ words → l ≠ r → h' !! l = h !! l.
Proof.
  intros Hws padding. unfold pad_words1, alloc. rewrite Hws. cbn.
  fold padding. set (h1 := <[words := ws ++ padding]> h).
  assert (fresh (dom h1) ∉ dom h1) as Hfresh by apply is_fresh.
  assert (fresh (dom h1) ≠ words) as Hne.
  { intros Heq. apply Hfresh. rewrite Heq. apply elem_of_dom.
    unfold h1. rewrite lookup_insert_eq. eauto. }
  eexists _, _. split; [done|]. split; [|split; [|split]].
  - apply not_elem_of_dom. intros [v Hv]%elem_of_dom. apply Hfresh.
    apply elem_of_dom. exists v.
    change (<[words := ws ++ padding]> h !! fresh (dom h1) = Some v).
    by rewrite lookup_insert_ne by auto.
  - rewrite lookup_insert_ne by done. apply lookup_insert_eq.
  - apply lookup_insert_eq.
  - intros l Hl1 Hl2. unfold h1. by rewrite !lookup_insert_ne by auto.
Qed.



(** C9, at the input where the code and the claim part. Called on a list
    of one word with [max_sent_len = 3], [pad_words1] returns a new list of
    three words and leaves the list it was given with three words too, the
    two padding words having been appended to it in place. *)
Theorem pad_words1_extends_its_argument :
  ∃ (r : loc) (h' : heap),
    pad_words1 0%nat 2 3 {[ 0%nat := [[1; 2]] ]} = Some (r, h') ∧
    r ≠ 0%nat ∧
    h' !! r = Some [[1; 2]; [0; 0]; [0; 0]] ∧
    ({[ 0%nat := [[1; 2]] ]} : heap) !! 0%nat = Some [[1; 2]] ∧
    h' !! 0%nat = Some [[1; 2]; [0; 0]; [0; 0]].
Proof.
  destruct (pad_words1_store 0%nat 2 3 {[ 0%nat := [[1; 2]] ]} [[1; 2]])
    as (r & h' & Hcall & Hr & Hwords & Hres & _); [done|].
  exists r, h'. split; [done|]. split; [|done].
  intros ->. by rewrite lookup_singleton_eq in Hr.
Qed.

(** ** Collecting the vocabularies *)

Lemma get_vocabs_sentences (l : list (list str * list str))
    (acc : gset str * gset str) (w : str) :
  w ∈ (foldl (λ '(vocab_words, vocab_tags) '(words, tags),
               (vocab_words ∪ list_to_set words,
                vocab_tags ∪ list_to_set tags)) acc l).1 ↔
  w ∈ acc.1 ∨ ∃ words tags, (words, tags) ∈ l ∧ w ∈ words.
Proof.
  revert acc. induction l as [|[words tags] l IH]; intros [vw vt]; cbn.
  - split; [by left|]. intros [?|(? & ? & []%elem_of_nil & _)]. done.
  - rewrite IH. cbn. rewrite elem_of_union, elem_of_list_to_set. split.
    + intros [[?|?]|(ws & ts & Hin & Hw)]; [by left| |].
      * right. exists words, tags. split; [by left|done].
      * right. exists ws, ts. split; [by right|done].
    + intros [?|(ws & ts & [[= -> ->]|Hin]%elem_of_cons & Hw)].
      * by left; left.
      * by left; right.
      * right. eauto.
Qed.

(** The words [get_vocabs] collects are the words of the sentences of the
    datasets, as they are written. *)
Lemma get_vocabs_words (datasets : list dataset) (w : str) :
  w ∈ (get_vocabs datasets).1 ↔
  ∃ ds words tags,
    ds ∈ datasets ∧ (words, tags) ∈ zip (sents ds) (labels ds) ∧ w ∈ words.
Proof.
  unfold get_vocabs.
  assert (∀ acc : gset str * gset str,
    w ∈ (foldl (λ acc ds,
           foldl (λ '(vocab_words, vocab_tags) '(words, tags),
                    (vocab_words ∪ list_to_set words,
                     vocab_tags ∪ list_to_set tags))
                 acc (zip (sents ds) (labels ds))) acc datasets).1 ↔
    w ∈ acc.1 ∨ ∃ ds words tags,
      ds ∈ datasets ∧ (words, tags) ∈ zip (sents ds) (labels ds) ∧ w ∈ words)
    as H.
  { induction datasets as [|ds datasets IH]; intros acc; cbn.
    - split; [by left|]. intros [?|(? & ? & ? & []%elem_of_nil & _)]. done.
    - rewrite IH, get_vocabs_sentences. split.
      + intros [[?|(ws & ts & Hin & Hw)]|(ds' & ws & ts & Hds & Hin & Hw)].
        * by left.
        * right. exists ds, ws, ts. split; [by left|done].
        * right. exists ds', ws, ts. split; [by right|done].
      + intros [?|(ds' & ws & ts & [->|Hds]%elem_of_cons & Hin & Hw)].
        * by left; left.
        * left; right. eauto.
        * right. eauto 6. }
  rewrite H. cbn. split; [|by right].
  intros [[]%not_elem_of_empty|?]. done.
Qed.

(** ** More on normalization and on the closure of [get_processing_word] *)

(** Folding the digits a second time changes nothing. *)
Theorem digit_to_zero_idempotent (w : str) :
  digit_to_zero (digit_to_zero w) = digit_to_zero w.
Proof.
  unfold digit_to_zero. change (py "0") with [48%N].
  rewrite !re_sub_class_singleton, <- list_fmap_compose.
  apply list_fmap_ext. intros _ c _. unfold compose.
  destruct (class_matches digit_class c) eqn:E; [done|]. by rewrite E.
Qed.

Lemma char_ids_loop_cases (vc : dict) (word : str) (acc : list Z) :
  (∃ ids, char_ids_loop vc word acc = Ok ids) ∨
  char_ids_loop vc word acc = Raise (KeyError (KStr UNK)).
Proof.
  revert acc. induction word as [|c word IH]; intros acc; cbn; [eauto|].
  destruct (contains vc [c]); [|apply IH].
  unfold getitem. destruct (vc !! UNK); cbn; [apply IH|by right].
Qed.

Lemma get_processing_word_without_pad
    (vw : dict) (vc : option dict) (lc uc : bool) (w : str) :
  vw !! PAD = None →
  ∃ k, get_processing_word (Some vw) vc lc uc w = Raise (KeyError (KStr k))
       ∧ (k = PAD ∨ k = UNK).
Proof.
  intros Hpad. unfold get_processing_word.
  assert (∀ ids : list Z,
    (Ok ids ≫= λ char_ids : list Z,
       (pad ← getitem vw PAD;
        Ok (TId (dict_get vw (normalized lc w) (dict_get vw UNK pad))))
       ≫= λ w0 : token,
         Ok match vc with
            | Some _ => if uc then CharsWord char_ids w0 else Word w0
            | None => Word w0
            end)
    = Raise (KeyError (KStr PAD))) as Hword.
  { intros ids. cbn. by rewrite (getitem_None _ _ Hpad). }
  destruct vc as [cs|]; [destruct uc|]; try (exists PAD; split; [apply Hword|by left]).
  destruct (char_ids_loop_cases cs (normalized lc w) []) as [[ids ->]| ->].
  - exists PAD. split; [apply Hword|by left].
  - exists UNK. split; [done|by right].
Qed.

(** A word vocabulary without [PAD] makes the closure raise a [KeyError]
    for every word, those of the vocabulary included, whatever the other
    options: for [PAD], or before that for [UNK] in the character step. *)
Theorem get_processing_word_needs_pad
    (vw : dict) (vc : option dict) (lc uc : bool) (w : str) :
  vw !! PAD = None →
  ∃ k, get_processing_word (Some vw) vc lc uc w = Raise (KeyError (KStr k))
       ∧ (k = PAD ∨ k = UNK).
Proof. apply get_processing_word_without_pad. Qed.

(** The character step without [UNK] in the character vocabulary: the
    closure raises as soon as one character of the word is in the
    vocabulary, and returns no character id otherwise. *)
Theorem get_processing_word_chars_need_unk (vc : dict) (lc : bool) (w : str) :
  vc !! UNK = None →
  (Exists (λ c, is_Some (vc !! [c])) (normalized lc w) →
   get_processing_word None (Some vc) lc true w
   = Raise (KeyError (KStr UNK))) ∧
  (Forall (λ c, vc !! [c] = None) (normalized lc w) →
   get_processing_word None (Some vc) lc true w
   = Ok (CharsWord [] (TStr (normalized lc w)))).
Proof.
  intros Hunk. unfold get_processing_word. cbn.
  assert (∀ word acc,
    (Exists (λ c, is_Some (vc !! [c])) word →
     char_ids_loop vc word acc = Raise (KeyError (KStr UNK))) ∧
    (Forall (λ c, vc !! [c] = None) word →
     char_ids_loop vc word acc = Ok acc)) as Hloop.
  { induction word as [|c word IH]; intros acc; cbn.
    - split; [by intros ?%Exists_nil|done].
    - destruct (contains vc [c]) eqn:E.
      + rewrite (getitem_None _ _ Hunk). cbn. split; [done|].
        intros [Hc _]%Forall_cons. apply contains_true in E as [v Hv].
        congruence.
      + apply contains_false in E. split.
        * intros [[v Hv]|Hex]%Exists_cons; [congruence|by apply IH].
        * intros [_ Hall]%Forall_cons. by apply IH. }
  split; intros H.
  - by rewrite (proj1 (Hloop _ []) H).
  - by rewrite (proj2 (Hloop _ []) H).
Qed.

(** ** More on padding *)

Lemma len_slice_to {A} (l : list A) (n : Z) :
  len (slice_to l n)
  = if n <? 0 then Z.max 0 (len l + n) else Z.min n (len l).
Proof.
  unfold slice_to, len. rewrite length_take.
  destruct (Z.ltb_spec n 0); lia.
Qed.


(** The sentence [pad_chars] builds from the words of one sentence. *)
Lemma pad_chars_loop_value (dataset : list (list (list Z))) (cfg : config)
    (res : list (list (list Z))) (h : heap) :
  ∃ h' : heap,
    pad_chars_loop dataset cfg res h =
      Some (res ++ ((λ sent,
              slice_to (pad_word_chars sent (max_word_len cfg)
                        ++ replicate (Z.to_nat (num_steps cfg - len sent))
                                     (zeros (max_word_len cfg)))
                       (num_steps cfg)) <$> dataset), h').
Proof.
  revert res h. induction dataset as [|sent dataset IH]; intros res h.
  - exists h. cbn. by rewrite app_nil_r.
  - cbn [pad_chars_loop alloc].
    destruct (pad_words1_store (fresh (dom h)) (max_word_len cfg)
                (num_steps cfg)
                (<[fresh (dom h) := pad_word_chars sent (max_word_len cfg)]> h)
                (pad_word_chars sent (max_word_len cfg)))
      as (r & h2 & -> & _ & _ & Hh2r & _); [apply lookup_insert_eq|].
    cbn. rewrite Hh2r. cbn.
    destruct (IH (res ++ [slice_to
      (pad_word_chars sent (max_word_len cfg) ++
       replicate (Z.to_nat (num_steps cfg -
                            len (pad_word_chars sent (max_word_len cfg))))
                 (zeros (max_word_len cfg))) (num_steps cfg)]) h2)
      as (h' & ->).
    exists h'. rewrite <- app_assoc. cbn.
    replace (len (pad_word_chars sent (max_word_len cfg))) with (len sent);
      [done|].
    unfold len, pad_word_chars. by rewrite length_fmap.
Qed.

(** With non-negative sizes, [pad_chars] returns a rectangular table: one
    sentence for each sentence given, [num_steps] words in every sentence,
    [max_word_len] ids in every word. *)
Theorem pad_chars_rectangular (dataset : list (list (list Z))) (cfg : config)
    (h : heap) :
  0 ≤ num_steps cfg → 0 ≤ max_word_len cfg →
  ∃ res (h' : heap),
    pad_chars dataset cfg h = Some (res, h') ∧
    length res = length dataset ∧
    Forall (λ sent, len sent = num_steps cfg ∧
                    Forall (λ word, len word = max_word_len cfg) sent) res.
Proof.
  intros Hns Hmwl. unfold pad_chars.
  destruct (pad_chars_loop_value dataset cfg [] h) as [h' ->].
  eexists _, h'. split; [done|]. cbn. split; [apply length_fmap|].
  apply Forall_fmap, Forall_forall. intros sent _. cbn. split.
  - rewrite len_slice_to. unfold len.
    rewrite length_app, length_replicate.
    unfold pad_word_chars. rewrite length_fmap.
    destruct (Z.ltb_spec (num_steps cfg) 0); lia.
  - apply Forall_forall. intros word Hword.
    rewrite slice_to_first in Hword by done.
    apply subseteq_take, elem_of_app in Hword as [Hword|Hword].
    + apply list_elem_of_lookup in Hword as [i Hi].
      unfold pad_word_chars in Hi. rewrite list_lookup_fmap in Hi.
      destruct (sent !! i) as [word0|]; [|done]. injection Hi as <-.
      rewrite len_slice_to. unfold len. rewrite length_app, length_zeros.
      destruct (Z.ltb_spec (max_word_len cfg) 0); lia.
    + apply elem_of_replicate in Hword as [-> _].
      unfold len. rewrite length_zeros. lia.
Qed.


(** ** More on [pad_words] and [to_onehot] *)


Lemma length_pad_row (maxlen : Z) (s row : list Z) :
  0 ≤ maxlen → pad_row maxlen Post Pre s = Ok row → len row = maxlen.
Proof.
  intros Hm Hrow. unfold pad_row in Hrow. case_bool_decide.
  { injection Hrow as <-. unfold len. rewrite length_zeros. lia. }
  destruct (Z.leb_spec (len (slice_from s (- maxlen))) maxlen).
  - injection Hrow as <-. unfold len in *.
    rewrite length_app, length_zeros. lia.
  - destruct (len _ =? 1); [|done]. injection Hrow as <-.
    unfold len. rewrite length_zeros. lia.
Qed.



Lemma length_one_hot (nc j : Z) : length (one_hot nc j) = Z.to_nat nc.
Proof. unfold one_hot. by rewrite length_fmap, length_seqZ. Qed.




Lemma to_onehot_inv (ys : list (list Z)) (cfg : config) (ntags : Z)
    (out : list (list (list Z))) :
  to_onehot ys cfg ntags = Ok out →
  0 ≤ num_steps cfg ∧
  Forall2 (λ y rows, ∃ y', pad_row (num_steps cfg) Post Pre y = Ok y'
                            ∧ to_categorical y' ntags = Ok rows) ys out.
Proof.
  unfold to_onehot, pad_sequences.
  destruct (Z.ltb_spec (num_steps cfg) 0); [done|].
  destruct (mapM _ ys) as [ys'|] eqn:Hys; cbn; [|done].
  intros Hout. split; [done|].
  apply mapM_Ok_inv in Hys, Hout. revert out Hout.
  induction Hys as [|y y' ys ys' Hy Hys IH]; intros out Hout.
  - apply Forall2_nil_inv_l in Hout as ->. constructor.
  - apply Forall2_cons_inv_l in Hout as (rows & out' & Hrows & Hout' & ->).
    constructor; eauto.
Qed.


(** When [to_onehot] returns for a positive number of classes, its result
    has one table for each label sequence, [num_steps] rows in every
    table and [ntags] entries in every row. *)
Theorem to_onehot_shape
    (ys : list (list Z)) (cfg : config) (ntags : Z)
    (out : list (list (list Z))) :
  0 < ntags →
  to_onehot ys cfg ntags = Ok out →
  length out = length ys ∧
  Forall (λ rows, len rows = num_steps cfg ∧
                  Forall (λ v, len v = ntags) rows) out.
Proof.
  intros Hnt Hout. apply to_onehot_inv in Hout as [Hns Hout].
  split; [symmetry; by eapply Forall2_length|].
  apply Forall_forall. intros rows Hrows.
  apply list_elem_of_lookup in Hrows as [i Hi].
  destruct (Forall2_lookup_r _ _ _ _ _ Hout Hi) as (y & _ & y' & Hpad & Hcat).
  apply length_pad_row in Hpad; [|done].
  unfold to_categorical in Hcat.
  destruct (Z.eqb_spec ntags 0); [lia|]. cbn in Hcat.
  destruct (Z.ltb_spec ntags 0); [lia|].
  apply mapM_Ok_inv in Hcat. split.
  - unfold len in *. by rewrite <- (Forall2_length _ _ _ Hcat).
  - apply Forall_forall. intros v Hv.
    apply list_elem_of_lookup in Hv as [j Hj].
    destruct (Forall2_lookup_r _ _ _ _ _ Hcat Hj) as (l & _ & Hl).
    destruct ((- ntags <=? l) && (l <? ntags)); [|done].
    injection Hl as <-. unfold len. rewrite length_one_hot. lia.
Qed.


(** ** More on collecting the vocabularies *)

Lemma get_vocabs_sentences_tags (l : list (list str * list str))
    (acc : gset str * gset str) (t : str) :
  t ∈ (foldl (λ '(vocab_words, vocab_tags) '(words, tags),
               (vocab_words ∪ list_to_set words,
                vocab_tags ∪ list_to_set tags)) acc l).2 ↔
  t ∈ acc.2 ∨ ∃ words tags, (words, tags) ∈ l ∧ t ∈ tags.
Proof.
  revert acc. induction l as [|[words tags] l IH]; intros [vw vt]; cbn.
  - split; [by left|]. intros [?|(? & ? & []%elem_of_nil & _)]. done.
  - rewrite IH. cbn. rewrite elem_of_union, elem_of_list_to_set. split.
    + intros [[?|?]|(ws & ts & Hin & Ht)]; [by left| |].
      * right. exists words, tags. split; [by left|done].
      * right. exists ws, ts. split; [by right|done].
    + intros [?|(ws & ts & [[= -> ->]|Hin]%elem_of_cons & Ht)].
      * by left; left.
      * by left; right.
      * right. eauto.
Qed.

Lemma get_vocabs_tags (datasets : list dataset) (t : str) :
  t ∈ (get_vocabs datasets).2 ↔
  ∃ ds words tags,
    ds ∈ datasets ∧ (words, tags) ∈ zip (sents ds) (labels ds) ∧ t ∈ tags.
Proof.
  unfold get_vocabs.
  assert (∀ acc : gset str * gset str,
    t ∈ (foldl (λ acc ds,
           foldl (λ '(vocab_words, vocab_tags) '(words, tags),
                    (vocab_words ∪ list_to_set words,
                     vocab_tags ∪ list_to_set tags))
                 acc (zip (sents ds) (labels ds))) acc datasets).2 ↔
    t ∈ acc.2 ∨ ∃ ds words tags,
      ds ∈ datasets ∧ (words, tags) ∈ zip (sents ds) (labels ds) ∧ t ∈ tags)
    as H.
  { induction datasets as [|ds datasets IH]; intros acc; cbn.
    - split; [by left|]. intros [?|(? & ? & ? & []%elem_of_nil & _)]. done.
    - rewrite IH, get_vocabs_sentences_tags. split.
      + intros [[?|(ws & ts & Hin & Ht)]|(ds' & ws & ts & Hds & Hin & Ht)].
        * by left.
        * right. exists ds, ws, ts. split; [by left|done].
        * right. exists ds', ws, ts. split; [by right|done].
      + intros [?|(ds' & ws & ts & [->|Hds]%elem_of_cons & Hin & Ht)].
        * by left; left.
        * left; right. eauto.
        * right. eauto 6. }
  rewrite H. cbn. split; [|by right].
  intros [[]%not_elem_of_empty|?]. done.
Qed.

Lemma elem_of_zip_same_length {A B} (l : list A) (k : list B) :
  length l = length k →
  (∀ x, x ∈ l → ∃ y, (x, y) ∈ zip l k) ∧
  (∀ y, y ∈ k → ∃ x, (x, y) ∈ zip l k).
Proof.
  intros Hlen. split.
  - intros x [i Hi]%list_elem_of_lookup.
    destruct (lookup_lt_is_Some_2 k i) as [y Hy].
    { rewrite <- Hlen. by eapply lookup_lt_Some. }
    exists y. apply list_elem_of_lookup. exists i.
    by rewrite lookup_zip_with, Hi, Hy.
  - intros y [i Hi]%list_elem_of_lookup.
    destruct (lookup_lt_is_Some_2 l i) as [x Hx].
    { rewrite Hlen. by eapply lookup_lt_Some. }
    exists x. apply list_elem_of_lookup. exists i.
    by rewrite lookup_zip_with, Hx, Hi.
Qed.

(** On datasets that have as many label sequences as sentences,
    [get_vocabs] returns exactly the words of the sentences and exactly the
    tags of the label sequences, as they are written. *)
Theorem get_vocabs_labelled (datasets : list dataset) :
  (∀ ds, ds ∈ datasets → length (sents ds) = length (labels ds)) →
  (∀ w, w ∈ (get_vocabs datasets).1 ↔
        ∃ ds words, ds ∈ datasets ∧ words ∈ sents ds ∧ w ∈ words) ∧
  (∀ t, t ∈ (get_vocabs datasets).2 ↔
        ∃ ds tags, ds ∈ datasets ∧ tags ∈ labels ds ∧ t ∈ tags).
Proof.
  intros Hlen. split.
  - intros w. rewrite get_vocabs_words. split.
    + intros (ds & words & tags & Hds & Hin & Hw).
      exists ds, words. split; [done|]. split; [|done].
      by eapply elem_of_zip_l.
    + intros (ds & words & Hds & Hin & Hw).
      destruct (proj1 (elem_of_zip_same_length _ _ (Hlen ds Hds)) words Hin)
        as [tags Htags].
      by exists ds, words, tags.
  - intros t. rewrite get_vocabs_tags. split.
    + intros (ds & words & tags & Hds & Hin & Ht).
      exists ds, tags. split; [done|]. split; [|done].
      by eapply elem_of_zip_r.
    + intros (ds & tags & Hds & Hin & Ht).
      destruct (proj2 (elem_of_zip_same_length _ _ (Hlen ds Hds)) tags Hin)
        as [words Hwords].
      by exists ds, words, tags.
Qed.

(** A sentence without a label sequence at its position is left out: the
    words of a dataset that has no label sequence are not collected. *)
Theorem get_vocabs_skips_unlabelled
    (ss : list (list str)) (datasets : list dataset) (w : str) :
  w ∈ (get_vocabs (Dataset ss [] :: datasets)).1 ↔
  w ∈ (get_vocabs datasets).1.
Proof.
  rewrite !get_vocabs_words. split.
  - intros (ds & words & tags & [->|Hds]%elem_of_cons & Hin & Hw).
    + cbn in Hin. apply elem_of_zip_r in Hin. by apply elem_of_nil in Hin.
    + eauto 6.
  - intros (ds & words & tags & Hds & Hin & Hw).
    exists ds, words, tags. split; [by right|done].
Qed.

Lemma get_char_vocab_words (l : list str) (acc : gset str) (c : str) :
  c ∈ foldl (λ vocab_char word,
               vocab_char ∪ list_to_set ((λ c, [c]) <$> word)) acc l ↔
  c ∈ acc ∨ ∃ word ch, word ∈ l ∧ ch ∈ word ∧ c = [ch].
Proof.
  revert acc. induction l as [|word l IH]; intros acc; cbn.
  - split; [by left|]. intros [?|(? & ? & []%elem_of_nil & _)]. done.
  - rewrite IH, elem_of_union, elem_of_list_to_set, list_elem_of_fmap. split.
    + intros [[?|(ch & -> & Hch)]|(word' & ch & Hin & Hch & ->)].
      * by left.
      * right. exists word, ch. split; [by left|done].
      * right. exists word', ch. split; [by right|done].
    + intros [?|(word' & ch & [->|Hin]%elem_of_cons & Hch & ->)].
      * by left; left.
      * left; right. eauto.
      * right. eauto.
Qed.

(** [get_char_vocab] returns exactly the characters of the words of the
    sentences, whether the sentences have labels or not. *)
Theorem get_char_vocab_characters (ds : dataset) (c : str) :
  c ∈ get_char_vocab ds ↔
  ∃ words word ch, words ∈ sents ds ∧ word ∈ words ∧ ch ∈ word ∧ c = [ch].
Proof.
  unfold get_char_vocab.
  assert (∀ acc : gset str,
    c ∈ foldl (λ vocab_char words,
                 foldl (λ vocab_char word,
                          vocab_char ∪ list_to_set ((λ c, [c]) <$> word))
                       vocab_char words) acc (sents ds) ↔
    c ∈ acc ∨ ∃ words word ch,
      words ∈ sents ds ∧ word ∈ words ∧ ch ∈ word ∧ c = [ch]) as H.
  { induction (sents ds) as [|words l IH]; intros acc; cbn.
    - split; [by left|]. intros [?|(? & ? & ? & []%elem_of_nil & _)]. done.
    - rewrite IH, get_char_vocab_words. split.
      + intros [[?|(word & ch & Hin & Hch & ->)]|
                (words' & word & ch & Hws & Hin & Hch & ->)].
        * by left.
        * right. exists words, word, ch. split; [by left|done].
        * right. exists words', word, ch. split; [by right|done].
      + intros [?|(words' & word & ch & [->|Hws]%elem_of_cons & Hin & Hch & ->)].
        * by left; left.
        * left; right. eauto.
        * right. eauto 8. }
  rewrite H. split; [|by right]. intros [[]%not_elem_of_empty|?]. done.
Qed.

Lemma build_vocab_sets_members (ds : corpus) (vocab_glove : gset str) :
  (∀ w, w ∈ (build_vocab_sets ds vocab_glove).1.1 ↔
        w = UNK ∨ w = NUM ∨
        (w ∈ vocab_glove ∧ w ∈ (get_vocabs [train ds; valid ds; test ds]).1)) ∧
  (build_vocab_sets ds vocab_glove).1.2 = get_char_vocab (train ds) ∧
  (build_vocab_sets ds vocab_glove).2
  = (get_vocabs [train ds; valid ds; test ds]).2.
Proof.
  unfold build_vocab_sets.
  destruct (get_vocabs [train ds; valid ds; test ds]) as [vw vt]. cbn.
  split; [|done]. intros w.
  rewrite !elem_of_union, elem_of_intersection, !elem_of_singleton.
  split.
  - intros [[[Hw Hg]| ->]| ->];
      [right; right; by split|by left|right; by left].
  - intros [->|[->|[Hg Hw]]];
      [left; by right|by right|left; left; by split].
Qed.

(** The word set [build_vocab] saves has [PAD] only if [PAD] is a word of
    the datasets that the embedding vocabulary has (or is [UNK] or [NUM]).
    Otherwise the closure of [get_processing_word] over a word vocabulary
    with these keys raises a [KeyError] for every word. *)
Theorem build_vocab_words_lack_pad
    (ds : corpus) (vocab_glove : gset str) (vw : dict)
    (vc : option dict) (lc uc : bool) (w : str) :
  dom vw = (build_vocab_sets ds vocab_glove).1.1 →
  PAD ≠ UNK → PAD ≠ NUM →
  ¬ (PAD ∈ vocab_glove ∧ PAD ∈ (get_vocabs [train ds; valid ds; test ds]).1) →
  ∃ k, get_processing_word (Some vw) vc lc uc w = Raise (KeyError (KStr k)).
Proof.
  intros Hdom Hu Hn Hpad.
  destruct (get_processing_word_without_pad vw vc lc uc w) as (k & Hk & _);
    [|by exists k].
  apply not_elem_of_dom. rewrite Hdom.
  rewrite (proj1 (build_vocab_sets_members ds vocab_glove)).
  by intros [?|[?|?]].
Qed.

(** ** More on [WordPreprocessor.fit] *)

Lemma add_token_is_Some (d : dict) (k k' : str) :
  is_Some (add_token d k !! k') ↔ is_Some (d !! k') ∨ k' = k.
Proof.
  unfold add_token. destruct (contains d k) eqn:E.
  - apply contains_true in E. split; [by left|]. by intros [?| ->].
  - rewrite lookup_insert_is_Some. split.
    + intros [->|[_ ?]]; [by right|by left].
    + intros [?| ->]; [|by left].
      destruct (decide (k = k')) as [->|]; [by left|by right].
Qed.

Lemma foldl_add_token_is_Some {A} (f : A → str) (l : list A) (d : dict) k :
  is_Some (foldl (λ d x, add_token d (f x)) d l !! k) ↔
  is_Some (d !! k) ∨ ∃ x, x ∈ l ∧ k = f x.
Proof.
  revert d. induction l as [|x l IH]; intros d; cbn.
  - split; [by left|]. intros [?|(? & []%elem_of_nil & _)]. done.
  - rewrite IH, add_token_is_Some. split.
    + intros [[?| ->]|(z & Hz & ->)]; [by left| |].
      * right. exists x. split; [by left|done].
      * right. exists z. split; [by right|done].
    + intros [?|(z & [->|Hz]%elem_of_cons & ->)].
      * by left; left.
      * by left; right.
      * right. eauto.
Qed.

Lemma foldl_fit_word_words (self : WordPreprocessor) (l : list str) st k :
  is_Some ((foldl (fit_word self) st l).1 !! k) ↔
  is_Some (st.1 !! k) ∨ ∃ w, w ∈ l ∧ k = norm self w.
Proof.
  revert st. induction l as [|w l IH]; intros [words chars]; cbn [foldl].
  - split; [by left|]. intros [?|(? & []%elem_of_nil & _)]. done.
  - rewrite IH.
    assert ((fit_word self (words, chars) w).1
            = add_token words (norm self w)) as ->.
    { unfold fit_word. by destruct (negb (char_feature self)). }
    rewrite add_token_is_Some. cbn. split.
    + intros [[?| ->]|(z & Hz & ->)]; [by left| |].
      * right. exists w. split; [by left|done].
      * right. exists z. split; [by right|done].
    + intros [?|(z & [->|Hz]%elem_of_cons & ->)].
      * by left; left.
      * by left; right.
      * right. eauto.
Qed.

Lemma foldl_fit_word_chars (self : WordPreprocessor) (l : list str) st k :
  char_feature self = true →
  is_Some ((foldl (fit_word self) st l).2 !! k) ↔
  is_Some (st.2 !! k) ∨ ∃ w c, w ∈ l ∧ c ∈ norm self w ∧ k = [c].
Proof.
  intros Hcf. revert st.
  induction l as [|w l IH]; intros [words chars]; cbn [foldl].
  - split; [by left|]. intros [?|(? & ? & []%elem_of_nil & _)]. done.
  - rewrite IH.
    assert ((fit_word self (words, chars) w).2
            = foldl (λ chars c, add_token chars [c]) chars (norm self w))
      as ->.
    { unfold fit_word. by rewrite Hcf. }
    rewrite (foldl_add_token_is_Some (λ c, [c])). cbn. split.
    + intros [[?|(c & Hc & ->)]|(z & c & Hz & Hc & ->)]; [by left| |].
      * right. exists w, c. split; [by left|done].
      * right. exists z, c. split; [by right|done].
    + intros [?|(z & c & [->|Hz]%elem_of_cons & Hc & ->)].
      * by left; left.
      * left; right. eauto.
      * right. eauto.
Qed.

Lemma foldl_fit_word_no_chars (self : WordPreprocessor) (l : list str) st :
  char_feature self = false → (foldl (fit_word self) st l).2 = st.2.
Proof.
  intros Hcf. revert st.
  induction l as [|w l IH]; intros [words chars]; cbn [foldl]; [done|].
  rewrite IH. unfold fit_word. by rewrite Hcf.
Qed.

Lemma elem_of_set_iter (s : gset str) (w : str) : w ∈ set_iter s ↔ w ∈ s.
Proof. by rewrite set_iter_elements, elem_of_elements. Qed.

(** The keys of the word vocabulary after [fit] are [UNK] and the
    normalized forms of the words of [X] and of the initial vocabulary,
    and nothing else. *)
Theorem fit_word_vocabulary_keys
    (self : WordPreprocessor) (X y : list (list str)) :
  ∃ words : dict,
    vocab_word (fit self X y) = Some words ∧
    ∀ k, is_Some (words !! k) ↔
         k = UNK ∨ ∃ w, (w ∈ concat X ∨ w ∈ vocab_init self)
                        ∧ k = norm self w.
Proof.
  unfold fit.
  pose proof (foldl_fit_word_words self
    (set_iter (list_to_set (concat X) ∪ list_to_set (vocab_init self)))
    ({[UNK := 0]}, {[UNK := 0]})) as H.
  destruct (foldl _ _ _) as [words chars].
  exists words. split; [done|]. intros k. rewrite H. cbn.
  rewrite lookup_singleton_is_Some. split.
  - intros [->|(w & Hw & ->)]; [by left|]. right. exists w. split; [|done].
    apply elem_of_set_iter in Hw.
    by rewrite elem_of_union, !elem_of_list_to_set in Hw.
  - intros [->|(w & Hw & ->)]; [by left|]. right. exists w. split; [|done].
    apply elem_of_set_iter.
    by rewrite elem_of_union, !elem_of_list_to_set.
Qed.

(** The keys of the character vocabulary after [fit]: with character
    features, [UNK] and the characters of those normalized forms; without,
    the vocabulary is [{UNK: 0}]. *)
Theorem fit_char_vocabulary_keys
    (self : WordPreprocessor) (X y : list (list str)) :
  ∃ chars : dict,
    vocab_char (fit self X y) = Some chars ∧
    (char_feature self = true →
     ∀ k, is_Some (chars !! k) ↔
          k = UNK ∨ ∃ w c, (w ∈ concat X ∨ w ∈ vocab_init self)
                           ∧ c ∈ norm self w ∧ k = [c]) ∧
    (char_feature self = false → chars = {[UNK := 0]}).
Proof.
  unfold fit.
  pose proof (foldl_fit_word_chars self
    (set_iter (list_to_set (concat X) ∪ list_to_set (vocab_init self)))
    ({[UNK := 0]}, {[UNK := 0]})) as H.
  pose proof (foldl_fit_word_no_chars self
    (set_iter (list_to_set (concat X) ∪ list_to_set (vocab_init self)))
    ({[UNK := 0]}, {[UNK := 0]})) as H'.
  destruct (foldl _ _ _) as [words chars].
  exists chars. split; [done|]. split; [|done].
  intros Hcf k. rewrite H by done. cbn.
  rewrite lookup_singleton_is_Some. split.
  - intros [->|(w & c & Hw & Hc & ->)]; [by left|].
    right. exists w, c. split; [|done].
    apply elem_of_set_iter in Hw.
    by rewrite elem_of_union, !elem_of_list_to_set in Hw.
  - intros [->|(w & c & Hw & Hc & ->)]; [by left|].
    right. exists w, c. split; [|done].
    apply elem_of_set_iter.
    by rewrite elem_of_union, !elem_of_list_to_set.
Qed.

Lemma add_token_fresh (d : dict) (k : str) :
  d !! k = None → add_token d k !! k = Some (Z.of_nat (size d)).
Proof.
  intros Hk. unfold add_token. apply contains_false in Hk as ->.
  apply lookup_insert_eq.
Qed.

Lemma foldl_add_token_size (l : list str) :
  size (foldl add_token ∅ l) = size (list_to_set l : gset str).
Proof.
  rewrite <- (size_dom (D := gset str)). f_equal. apply set_eq. intros k.
  rewrite elem_of_dom, elem_of_list_to_set.
  rewrite (foldl_add_token_is_Some id), lookup_empty. split.
  - intros [[? [=]]|(x & Hx & ->)]. done.
  - intros Hk. right. by exists k.
Qed.

(** The tag vocabulary after [fit] has exactly the labels of [y], numbered
    in the order of their first occurrence: a label gets the number of
    distinct labels met before it. *)
Theorem fit_tag_ids_first_seen
    (self : WordPreprocessor) (X y : list (list str))
    (l1 l2 : list str) (t : str) :
  concat y = l1 ++ t :: l2 → t ∉ l1 →
  ∃ tags : dict,
    vocab_tag (fit self X y) = Some tags ∧
    tags !! t = Some (Z.of_nat (size (list_to_set l1 : gset str))) ∧
    ∀ k, is_Some (tags !! k) ↔ k ∈ concat y.
Proof.
  intros Hy Ht.
  destruct (fit_vocabs self X y) as (words & chars & -> & _).
  eexists. split; [done|]. split.
  - rewrite Hy, foldl_app.
    change (foldl add_token (add_token (foldl add_token ∅ l1) t) l2 !! t
            = Some (Z.of_nat (size (list_to_set l1 : gset str)))).
    apply (foldl_add_token_lookup id l2).
    assert (foldl add_token ∅ l1 !! t = None) as Hnone.
    { apply eq_None_not_Some.
      rewrite (foldl_add_token_is_Some id), lookup_empty.
      intros [[? [=]]|(x & Hx & ->)]. done. }
    by rewrite (add_token_fresh _ _ Hnone), foldl_add_token_size.
  - intros k. rewrite (foldl_add_token_is_Some id), lookup_empty. split.
    + intros [[? [=]]|(x & Hx & ->)]. done.
    + intros Hk. right. by exists k.
Qed.

(** ** More on [transform] and [inverse_transform] *)

Lemma mapM_Raise_same {A B} (f : A → result B) (l : list A) (e : exn) :
  (∀ x e', x ∈ l → f x = Raise e' → e' = e) →
  (∃ x, x ∈ l ∧ raises (f x)) →
  mapM f l = Raise e.
Proof.
  intros Hsame Hex. apply mapM_raises in Hex as [e' He'].
  rewrite He'. f_equal.
  apply mapM_Raise_inv in He' as (x & Hx & He'). by eapply Hsame.
Qed.

Lemma word_id_in_range (words : dict) (k : str) :
  words !! UNK = Some 0 → contiguous words →
  in_range words (word_id_in words 0 k).
Proof.
  intros Hunk Hc. unfold word_id_in, in_range.
  destruct (words !! k) as [v|] eqn:Hk; cbn.
  - by eapply contiguous_bound.
  - by eapply contiguous_bound.
Qed.

(** After [fit], the ids [transform] returns index the vocabularies: every
    word id is below the size of the word vocabulary, every character id
    below the size of the character vocabulary and every tag id below the
    size of the tag vocabulary, none being negative. *)
Theorem transform_ids_in_range
    (self : WordPreprocessor) (X0 y0 X y : list (list str))
    (sents : list features) (ids : list (list Z)) :
  transform (fit self X0 y0) X y = Ok (sents, ids) →
  ∃ words chars tags : dict,
    vocab_word (fit self X0 y0) = Some words ∧
    vocab_char (fit self X0 y0) = Some chars ∧
    vocab_tag (fit self X0 y0) = Some tags ∧
    Forall (λ f, Forall (in_range words) (word_ids_of f) ∧
                 Forall (Forall (in_range chars)) (char_ids_of f)) sents ∧
    Forall (Forall (in_range tags)) ids.
Proof.
  destruct (fit_vocabs self X0 y0)
    as (words & chars & Hp & [[Hw [_ Hwc]] [Hc [_ Hcc]]]).
  cbn in Hw, Hc, Hwc, Hcc. rewrite Hp.
  set (p := {| lowercase := lowercase self; num_norm := num_norm self;
               char_feature := char_feature self; vocab_word := Some words;
               vocab_char := Some chars;
               vocab_tag := Some (foldl add_token ∅ (concat y0));
               vocab_init := vocab_init self |}).
  rewrite (transform_sents p words chars (foldl add_token ∅ (concat y0)) 0 0)
    by done.
  destruct (mapM _ y) as [ids'|] eqn:Hy; cbn; [|done].
  intros [= <- <-]. eexists _, _, _.
  split; [done|]. split; [done|]. split; [done|]. split.
  - apply Forall_fmap, Forall_forall. intros sent _. cbn.
    unfold features_in. destruct (char_feature p); cbn.
    + split.
      * apply Forall_fmap, Forall_forall. intros w _.
        by apply word_id_in_range.
      * apply Forall_fmap, Forall_forall. intros w _. cbn.
        apply Forall_fmap, Forall_forall. intros c _.
        by apply (word_id_in_range chars [c]).
    + split; [|constructor].
      apply Forall_fmap, Forall_forall. intros w _.
      by apply word_id_in_range.
  - apply mapM_Ok_inv in Hy. apply Forall_forall. intros ids_i Hi.
    apply list_elem_of_lookup in Hi as [i Hi].
    destruct (Forall2_lookup_r _ _ _ _ _ Hy Hi) as (sent & _ & Hsent).
    apply mapM_Ok_inv in Hsent. apply Forall_forall. intros v Hv.
    apply list_elem_of_lookup in Hv as [j Hj].
    destruct (Forall2_lookup_r _ _ _ _ _ Hsent Hj) as (t & _ & Ht).
    unfold getitem in Ht.
    destruct (foldl add_token ∅ (concat y0) !! t) as [v'|] eqn:Hv';
      [|done].
    injection Ht as ->. eapply contiguous_bound; [|done].
    apply fit_tags_indexed.
Qed.

(** After [fit], what [transform] returns is aligned with what it is
    given: one entry for each sentence with one word id for each word and,
    with character features, one list of character ids for each word; one
    list of tag ids for each label sequence, with one id for each label. *)
Theorem transform_alignment
    (self : WordPreprocessor) (X0 y0 X y : list (list str))
    (sents : list features) (ids : list (list Z)) :
  transform (fit self X0 y0) X y = Ok (sents, ids) →
  Forall2 (λ sent f,
             length (word_ids_of f) = length sent ∧
             (char_feature self = true →
              length (char_ids_of f) = length sent)) X sents ∧
  Forall2 (λ labels ids_i, length ids_i = length labels) y ids.
Proof.
  destruct (fit_vocabs self X0 y0)
    as (words & chars & Hp & [[Hw _] [Hc _]]).
  cbn in Hw, Hc. rewrite Hp.
  set (p := {| lowercase := lowercase self; num_norm := num_norm self;
               char_feature := char_feature self; vocab_word := Some words;
               vocab_char := Some chars;
               vocab_tag := Some (foldl add_token ∅ (concat y0));
               vocab_init := vocab_init self |}).
  rewrite (transform_sents p words chars (foldl add_token ∅ (concat y0)) 0 0)
    by done.
  destruct (mapM _ y) as [ids'|] eqn:Hy; cbn; [|done].
  intros [= <- <-]. split.
  - apply Forall2_fmap_r, Forall_Forall2_diag, Forall_forall.
    intros sent _. unfold features_in.
    change (char_feature p) with (char_feature self).
    destruct (char_feature self); cbn; rewrite ?length_fmap; by split.
  - apply mapM_Ok_inv in Hy.
    eapply Forall2_impl; [done|]. cbn. intros labels ids_i Hi.
    apply mapM_Ok_inv in Hi. symmetry. by eapply Forall2_length.
Qed.

(** Two words given to [fit] get the same id from [transform] exactly
    when they have the same normalized form, and the id 0 exactly when that
    form is [UNK]. *)
Theorem transform_distinguishes_words
    (self : WordPreprocessor) (X0 y0 : list (list str)) (w1 w2 : str) :
  w1 ∈ concat X0 → w2 ∈ concat X0 →
  ∃ (sents : list features) (i1 i2 : Z),
    transform (fit self X0 y0) [[w1; w2]] [] = Ok (sents, []) ∧
    word_ids_of <$> sents = [[i1; i2]] ∧
    (i1 = i2 ↔ norm self w1 = norm self w2) ∧
    (i1 = 0 ↔ norm self w1 = UNK).
Proof.
  intros [s1 [Hs1 H1]]%elem_of_concat [s2 [Hs2 H2]]%elem_of_concat.
  destruct (fit_covers_words self X0 y0 s1 w1 Hs1 H1) as (ws1 & Hws1 & [v1 Hv1]).
  destruct (fit_covers_words self X0 y0 s2 w2 Hs2 H2) as (ws2 & Hws2 & [v2 Hv2]).
  destruct (fit_vocabs self X0 y0)
    as (words & chars & Hp & [[Hw [Hwi _]] [Hc _]]).
  cbn in Hw, Hc, Hwi. rewrite Hp in Hws1, Hws2 |- *.
  cbn in Hws1, Hws2. injection Hws1 as <-. injection Hws2 as <-.
  set (p := {| lowercase := lowercase self; num_norm := num_norm self;
               char_feature := char_feature self; vocab_word := Some words;
               vocab_char := Some chars;
               vocab_tag := Some (foldl add_token ∅ (concat y0));
               vocab_init := vocab_init self |}).
  rewrite (transform_known_labels p words chars
             (foldl add_token ∅ (concat y0)) 0 0);
    try done; [|by intros ? ? []%elem_of_nil].
  eexists _, v1, v2. split; [done|]. split.
  { cbn. rewrite word_ids_of_features_in. cbn. unfold word_id_in.
    change (norm p) with (norm self). by rewrite Hv1, Hv2. }
  split; split.
  - intros ->. by apply (Hwi _ _ v2).
  - intros Heq. rewrite Heq in Hv1. congruence.
  - intros ->. by apply (Hwi _ _ 0).
  - intros Heq. rewrite Heq in Hv1. congruence.
Qed.

Lemma transform_unfitted
    (self : WordPreprocessor) (X y : list (list str))
    (sent : list str) (w : str) :
  vocab_word self = None → vocab_tag self = None →
  sent ∈ X ∨ sent ∈ y → w ∈ sent →
  transform self X y = Raise TypeError.
Proof.
  intros Hvw Hvt Hsent Hw.
  assert (∀ s, (s = [] ∧ transform_sent self s [] [] = Ok ([], []))
               ∨ (s ≠ [] ∧ transform_sent self s [] [] = Raise TypeError))
    as Hx.
  { intros [|w' s]; [by left|right]. split; [done|]. cbn. by rewrite Hvw. }
  assert (∀ s : list str,
    (s = [] ∧ mapM (λ t : str, match vocab_tag self with
                               | None => Raise TypeError
                               | Some vt => getitem vt t
                               end) s = Ok [])
    ∨ (s ≠ [] ∧ mapM (λ t : str, match vocab_tag self with
                                 | None => Raise TypeError
                                 | Some vt => getitem vt t
                                 end) s = Raise TypeError)) as Hy.
  { intros [|t s]; [by left|right]. split; [done|].
    rewrite mapM_cons. by rewrite Hvt. }
  unfold transform.
  destruct (result_cases (mapM (λ sent0,
      '(word_ids, char_word_ids) ← transform_sent self sent0 [] [];
      Ok (if char_feature self
          then CharsWords char_word_ids word_ids
          else Words word_ids)) X)) as [[sents HX]|HX].
  - rewrite HX.
    change (Ok sents ≫= ?k) with (k sents). cbv beta.
    rewrite (mapM_Raise_same _ y TypeError); [done| |].
    + intros s e' _ He. cbv beta in He.
      destruct (Hy s) as [[_ Hs]|[_ Hs]]; rewrite Hs in He; congruence.
    + destruct Hsent as [Hsent|Hsent].
      * exfalso. apply (Ok_not_raises sents). rewrite <- HX.
        apply mapM_raises. exists sent. split; [done|]. cbv beta.
        destruct (Hx sent) as [[-> _]|[_ ->]];
          [by apply elem_of_nil in Hw|by eexists].
      * exists sent. split; [done|]. cbv beta.
        destruct (Hy sent) as [[-> _]|[_ ->]];
          [by apply elem_of_nil in Hw|by eexists].
  - rewrite (mapM_Raise_same _ X TypeError); [done| |].
    + intros s e' _ He. cbv beta in He.
      destruct (Hx s) as [[_ Hs]|[_ Hs]]; rewrite Hs in He; cbn in He;
        congruence.
    + apply mapM_raises in HX. done.
Qed.

(** Before [fit], [transform] raises a [TypeError] as soon as it is given
    a word or a label, and [inverse_transform] an [AttributeError]. *)
Theorem transform_before_fit
    (lc nn cf : bool) (vi : option (list str)) (X y : list (list str))
    (sent : list str) (w : str) (ids : list Z) :
  sent ∈ X ∨ sent ∈ y → w ∈ sent →
  transform (init lc nn cf vi) X y = Raise TypeError ∧
  inverse_transform (init lc nn cf vi) ids = Raise AttributeError.
Proof.
  intros Hsent Hw. split; [|done].
  by apply (transform_unfitted _ X y sent w).
Qed.

Lemma invert_lookup_Some (l : list (str * Z)) (acc : gmap Z str) t (i : Z) :
  foldl (λ acc '(t, i), <[i := t]> acc) acc l !! i = Some t →
  acc !! i = Some t ∨ (t, i) ∈ l.
Proof.
  revert acc. induction l as [|[t' j] l IH]; intros acc; cbn; [by left|].
  intros [Hacc|Hin]%IH; [|right; by right].
  apply lookup_insert_Some in Hacc as [[-> ->]|[_ Hacc]]; [|by left].
  right. by left.
Qed.

Lemma indice_tag_Some (vt : dict) (t : str) (i : Z) :
  indice_tag vt !! i = Some t → vt !! t = Some i.
Proof.
  unfold indice_tag. intros [Habs|Hin]%invert_lookup_Some.
  - by rewrite lookup_empty in Habs.
  - by apply elem_of_map_to_list in Hin.
Qed.

(** After [fit], [inverse_transform] returns on ids that index the tag
    vocabulary, with tags that [transform] maps back to these ids; given an
    id outside, it raises a [KeyError] for such an id. *)
Theorem inverse_transform_ids
    (self : WordPreprocessor) (X y : list (list str)) (ids : list Z) :
  ∃ tags : dict,
    vocab_tag (fit self X y) = Some tags ∧
    (Forall (in_range tags) ids →
     ∃ ts, inverse_transform (fit self X y) ids = Ok ts ∧
           transform (fit self X y) [] [ts] = Ok ([], [ids])) ∧
    (¬ Forall (in_range tags) ids →
     ∃ i, i ∈ ids ∧ ¬ in_range tags i ∧
          inverse_transform (fit self X y) ids = Raise (KeyError (KInt i))).
Proof.
  destruct (fit_vocabs self X y)
    as (words & chars & Hp & [[Hw _] [Hc _]]).
  cbn in Hw, Hc. rewrite Hp.
  set (tags := foldl add_token ∅ (concat y)).
  set (p := {| lowercase := lowercase self; num_norm := num_norm self;
               char_feature := char_feature self; vocab_word := Some words;
               vocab_char := Some chars; vocab_tag := Some tags;
               vocab_init := vocab_init self |}).
  destruct (fit_tags_indexed y) as [Hinj Hcont]. fold tags in Hinj, Hcont.
  exists tags. split; [done|]. split.
  - intros Hids.
    assert (∀ i, i ∈ ids → ∃ t, tags !! t = Some i
                                ∧ indice_tag tags !! i = Some t) as Hinv.
    { intros i Hi. rewrite Forall_forall in Hids.
      destruct (proj2 (Hcont i) (Hids i Hi)) as [t Ht].
      exists t. split; [done|]. by apply indice_tag_lookup. }
    exists ((λ i, default [] (indice_tag tags !! i)) <$> ids). split.
    + unfold inverse_transform. cbn. apply mapM_Ok_fmap. intros i Hi.
      destruct (Hinv i Hi) as (t & _ & ->). done.
    + rewrite (transform_known_labels p words chars tags 0 0); try done.
      * cbn. do 3 f_equal. rewrite <- list_fmap_compose.
        rewrite <- (list_fmap_id ids) at 2.
        apply list_fmap_ext. intros _ i Hi%list_elem_of_lookup_2. cbn.
        destruct (Hinv i Hi) as (t & Ht & ->). cbn. by rewrite Ht.
      * intros s t [->|[]%elem_of_nil]%elem_of_cons
          (i & -> & Hi)%list_elem_of_fmap.
        destruct (Hinv i Hi) as (t & Ht & ->). cbn. eauto.
  - intros Hids. apply not_Forall_Exists in Hids; [|apply _].
    apply Exists_exists in Hids as (i0 & Hi0 & Hout).
    assert (raises (inverse_transform p ids)) as [e He].
    { unfold inverse_transform. cbn. apply mapM_raises.
      exists i0. split; [done|].
      destruct (indice_tag tags !! i0) as [t|] eqn:Ht; [|by eexists].
      exfalso. apply Hout, Hcont. exists t. by apply indice_tag_Some. }
    pose proof He as He'. unfold inverse_transform in He'. cbn in He'.
    apply mapM_Raise_inv in He' as (i & Hi & Hraise).
    destruct (indice_tag tags !! i) as [t|] eqn:Ht; [done|].
    injection Hraise as <-. exists i. split; [done|]. split; [|done].
    intros Hin. destruct (proj2 (Hcont i) Hin) as [t Ht'].
    rewrite (indice_tag_lookup tags t i) in Ht; done.
Qed.

(** ** Vocabulary files *)

Lemma rstrip_app_space (s : str) (c : char) :
  isspace c = true → rstrip (s ++ [c]) = rstrip s.
Proof.
  intros Hc. induction s as [|a s IH]; cbn; [by rewrite Hc|by rewrite IH].
Qed.

Lemma load_vocab_lines_snoc (f : list str) (w : str) :
  load_vocab_lines (f ++ [w])
  = <[rstrip w := Z.of_nat (length f)]> (load_vocab_lines f).
Proof.
  unfold load_vocab_lines. rewrite imap_app, foldl_app. cbn.
  by rewrite Nat.add_0_r.
Qed.

Lemma load_vocab_lines_lookup (f : list str) (t : str) (v : Z) :
  load_vocab_lines f !! t = Some v ↔
  ∃ (i : nat) (w : str),
    v = Z.of_nat i ∧ f !! i = Some w ∧ rstrip w = t ∧
    ∀ (j : nat) (w' : str), (i < j)%nat → f !! j = Some w' → rstrip w' ≠ t.
Proof.
  induction f as [|w f IH] using rev_ind.
  - unfold load_vocab_lines. cbn. rewrite lookup_empty.
    split; [done|]. by intros (i & w & _ & Hi & _).
  - rewrite load_vocab_lines_snoc, lookup_insert_Some, IH. split.
    + intros [[<- <-]|[Hne (i & w0 & -> & Hi & Ht & Hlast)]].
      * exists (length f), w. split; [done|].
        split; [by rewrite lookup_app_r, Nat.sub_diag|]. split; [done|].
        intros j w' Hj Hw'. apply lookup_lt_Some in Hw'.
        rewrite length_app in Hw'. cbn in Hw'. lia.
      * exists i, w0. split; [done|].
        split; [by apply lookup_app_l_Some|]. split; [done|].
        intros j w' Hj Hw'.
        apply lookup_app_Some in Hw' as [Hw'|[_ Hw']]; [by eapply Hlast|].
        apply list_lookup_singleton_Some in Hw' as [_ <-]. done.
    + intros (i & w0 & -> & Hi & Ht & Hlast).
      apply lookup_app_Some in Hi as [Hi|[Hge Hi]].
      * right. split.
        -- intros Heq. apply (Hlast (length f) w); [|by rewrite lookup_app_r, Nat.sub_diag|done].
           by eapply lookup_lt_Some.
        -- exists i, w0. split; [done|]. split; [done|]. split; [done|].
           intros j w' Hj Hw'. apply (Hlast j w' Hj).
           by apply lookup_app_l_Some.
      * left. apply list_lookup_singleton_Some in Hi as [Hi <-].
        split; [done|]. f_equal. lia.
Qed.

(** The vocabulary read from a file maps a token to the number of the last
    line that holds it, trailing white space apart, the lines being
    numbered from 0; a token of no line is not in it. *)
Theorem load_vocab_last_line (fs : files) (filename : str) (f : list str)
    (t : str) (v : Z) :
  fs !! filename = Some f →
  ∃ d : dict,
    load_vocab_func fs filename = Read d ∧
    (d !! t = Some v ↔
     ∃ (i : nat) (w : str),
       v = Z.of_nat i ∧ f !! i = Some w ∧ rstrip w = t ∧
       ∀ (j : nat) (w' : str),
         (i < j)%nat → f !! j = Some w' → rstrip w' ≠ t).
Proof.
  intros Hf. unfold load_vocab_func. rewrite Hf.
  eexists. split; [done|]. apply load_vocab_lines_lookup.
Qed.

(** A file of distinct tokens, one on each line, none ending in white
    space: the vocabulary read from it maps the token of line [i] to [i],
    and it is injective with exactly the values [0 .. size - 1], the size
    being the number of lines. *)
Theorem load_vocab_distinct_tokens (ts : list str) :
  isspace 10%N = true →
  NoDup ts →
  (∀ t, t ∈ ts → rstrip t = t) →
  (∀ (i : nat) (t : str), ts !! i = Some t →
     load_vocab_lines ((λ t, t ++ [10%N]) <$> ts) !! t = Some (Z.of_nat i)) ∧
  size (load_vocab_lines ((λ t, t ++ [10%N]) <$> ts)) = length ts ∧
  injective (load_vocab_lines ((λ t, t ++ [10%N]) <$> ts)) ∧
  contiguous (load_vocab_lines ((λ t, t ++ [10%N]) <$> ts)).
Proof.
  intros Hnl Hnd Hts.
  set (d := load_vocab_lines ((λ t, t ++ [10%N]) <$> ts)).
  assert (∀ k v, d !! k = Some v ↔ ∃ i : nat, v = Z.of_nat i ∧ ts !! i = Some k)
    as Hd.
  { intros k v. unfold d. rewrite load_vocab_lines_lookup. split.
    - intros (i & w & -> & Hi & Hk & _). exists i. split; [done|].
      rewrite list_lookup_fmap in Hi.
      destruct (ts !! i) as [t|] eqn:Ht; [|done]. injection Hi as <-.
      rewrite rstrip_app_space in Hk by done.
      rewrite Hts in Hk by (by eapply list_elem_of_lookup_2). by subst.
    - intros (i & -> & Hi). exists i, (k ++ [10%N]). split; [done|].
      split; [by rewrite list_lookup_fmap, Hi|].
      assert (k ∈ ts) by (by eapply list_elem_of_lookup_2).
      split; [by rewrite rstrip_app_space, Hts|].
      intros j w' Hj Hw'. rewrite list_lookup_fmap in Hw'.
      destruct (ts !! j) as [t|] eqn:Ht; [|done]. injection Hw' as <-.
      rewrite rstrip_app_space by done.
      rewrite Hts by (by eapply list_elem_of_lookup_2). intros ->.
      pose proof (NoDup_lookup _ _ _ _ Hnd Hi Ht). lia. }
  assert (size d = length ts) as Hsize.
  { rewrite <- (size_dom (D := gset str)).
    rewrite <- (size_list_to_set (C := gset str) ts) by done.
    f_equal. apply set_eq. intros k.
    rewrite elem_of_dom, elem_of_list_to_set, list_elem_of_lookup.
    split.
    - intros [v (i & _ & Hi)%Hd]. eauto.
    - intros [i Hi]. exists (Z.of_nat i). apply Hd. eauto. }
  split; [|split; [done|split]].
  - intros i t Hi. apply Hd. eauto.
  - intros k1 k2 v (i1 & -> & H1)%Hd (i2 & Heq & H2)%Hd.
    apply Nat2Z.inj in Heq as <-. congruence.
  - intros v. rewrite Hsize. split.
    + intros [k (i & -> & Hi)%Hd]. apply lookup_lt_Some in Hi. lia.
    + intros Hv. destruct (lookup_lt_is_Some_2 ts (Z.to_nat v)) as [t Ht];
        [lia|].
      exists t. apply Hd. exists (Z.to_nat v). split; [lia|done].
Qed.




(** ** Word embeddings *)

Lemma setitem_row_shape (emb emb' : list (list float)) (dim idx : Z)
    (v : list float) :
  setitem_row emb dim idx v = Ok emb' →
  length emb' = length emb ∧
  (Forall (λ row, len row = dim) emb → Forall (λ row, len row = dim) emb').
Proof.
  unfold setitem_row.
  destruct ((- len emb <=? idx) && (idx <? len emb)) eqn:Hidx; [|done].
  apply andb_prop in Hidx as [H1%Z.leb_le H2%Z.ltb_lt].
  destruct (Z.eqb_spec (len v) dim) as [Hv|Hv].
  - intros [= <-]. split; [apply length_insert|].
    intros Hall. by apply Forall_insert.
  - destruct v as [|x [|? ?]]; try done. intros [= <-].
    split; [apply length_insert|].
    intros Hall. apply Forall_insert; [done|].
    unfold len in *. rewrite length_replicate.
    destruct emb as [|row emb]; [cbn in *; lia|].
    apply Forall_cons_1 in Hall as [Hrow _]. lia.
Qed.

Lemma load_word_embeddings_loop_app (vocab : dict) (dim : Z)
    (f1 f2 : list str) (emb : list (list float)) :
  load_word_embeddings_loop vocab dim (f1 ++ f2) emb
  = (emb1 ← load_word_embeddings_loop vocab dim f1 emb;
     load_word_embeddings_loop vocab dim f2 emb1).
Proof.
  revert emb. induction f1 as [|line f1 IH]; intros emb; [done|].
  cbn [app load_word_embeddings_loop].
  destruct (mapM to_float _) as [v|]; cbn; [|done].
  destruct (contains vocab _); cbn; [|apply IH].
  destruct (getitem vocab _) as [idx|]; cbn; [|done].
  destruct (setitem_row emb dim idx v); cbn; [apply IH|done].
Qed.

(** One line of the file, when the loop goes on after it. *)
Lemma load_word_embeddings_loop_cons (vocab : dict) (dim : Z)
    (line : str) (f : list str) (emb emb' : list (list float)) :
  load_word_embeddings_loop vocab dim (line :: f) emb = Ok emb' →
  ∃ v emb1,
    mapM to_float (line_values line) = Ok v ∧
    match vocab !! line_word line with
    | Some idx => setitem_row emb dim idx v = Ok emb1
    | None => emb1 = emb
    end ∧
    load_word_embeddings_loop vocab dim f emb1 = Ok emb'.
Proof.
  cbn [load_word_embeddings_loop]. fold (line_values line) (line_word line).
  destruct (mapM to_float _) as [v|]; cbn; [|done].
  destruct (contains vocab (line_word line)) eqn:E; cbn.
  - apply contains_true in E as [idx Hidx]. rewrite Hidx.
    rewrite (getitem_Some _ _ _ Hidx). cbn.
    destruct (setitem_row emb dim idx v) as [emb1|] eqn:Hset; cbn; [|done].
    intros Hloop. by exists v, emb1.
  - apply contains_false in E. rewrite E. intros Hloop. by exists v, emb.
Qed.

Lemma load_word_embeddings_loop_shape (vocab : dict) (dim : Z)
    (f : list str) (emb emb' : list (list float)) :
  load_word_embeddings_loop vocab dim f emb = Ok emb' →
  length emb' = length emb ∧
  (Forall (λ row, len row = dim) emb → Forall (λ row, len row = dim) emb').
Proof.
  revert emb. induction f as [|line f IH]; intros emb.
  - by intros [= <-].
  - intros (v & emb1 & _ & Hset & Hloop)%load_word_embeddings_loop_cons.
    apply IH in Hloop as [Hlen Hall].
    destruct (vocab !! line_word line) as [idx|]; [|by subst].
    apply setitem_row_shape in Hset as [Hlen1 Hall1].
    split; [congruence|auto].
Qed.

(** When [load_word_embeddings] returns, the matrix has one row for each
    entry of the vocabulary and [dim] numbers in every row. *)
Theorem load_word_embeddings_shape (vocab : dict) (f : list str) (dim : Z)
    (emb : list (list float)) :
  load_word_embeddings vocab f dim = Ok emb →
  length emb = size vocab ∧ Forall (λ row, len row = dim) emb.
Proof.
  unfold load_word_embeddings.
  destruct (Z.ltb_spec dim 0); [done|].
  intros [Hlen Hall]%load_word_embeddings_loop_shape.
  rewrite length_replicate in Hlen. split; [done|].
  apply Hall, Forall_replicate. unfold len. rewrite length_replicate. lia.
Qed.

Lemma setitem_row_lookup (emb emb' : list (list float)) (dim idx : Z)
    (v : list float) :
  0 ≤ idx →
  setitem_row emb dim idx v = Ok emb' →
  (∀ j : nat, j ≠ Z.to_nat idx → emb' !! j = emb !! j) ∧
  ((len v = dim ∧ emb' !! Z.to_nat idx = Some v) ∨
   (∃ x, v = [x] ∧ emb' !! Z.to_nat idx = Some (replicate (Z.to_nat dim) x))).
Proof.
  intros Hidx. unfold setitem_row.
  destruct ((- len emb <=? idx) && (idx <? len emb)) eqn:Hr; [|done].
  apply andb_prop in Hr as [_ H2%Z.ltb_lt].
  rewrite Z.mod_small by lia.
  assert (Z.to_nat idx < length emb)%nat by (unfold len in *; lia).
  destruct (Z.eqb_spec (len v) dim) as [Hv|Hv].
  - intros [= <-]. split.
    + intros j Hj. by rewrite list_lookup_insert_ne.
    + left. split; [done|]. by apply list_lookup_insert_eq.
  - destruct v as [|x [|? ?]]; try done. intros [= <-]. split.
    + intros j Hj. by rewrite list_lookup_insert_ne.
    + right. exists x. split; [done|]. by apply list_lookup_insert_eq.
Qed.

(** The lines for other words leave the row of a word as it is. *)
Lemma load_word_embeddings_loop_other (vocab : dict) (dim : Z)
    (f : list str) (emb emb' : list (list float)) (w : str) (i : Z) :
  injective vocab →
  (∀ k v, vocab !! k = Some v → 0 ≤ v) →
  vocab !! w = Some i →
  Forall (λ line, line_word line ≠ w) f →
  load_word_embeddings_loop vocab dim f emb = Ok emb' →
  emb' !! Z.to_nat i = emb !! Z.to_nat i.
Proof.
  intros Hinj Hpos Hw Hf. revert emb.
  induction Hf as [|line f Hline Hf IH]; intros emb.
  - by intros [= <-].
  - intros (v & emb1 & _ & Hset & Hloop)%load_word_embeddings_loop_cons.
    rewrite (IH _ Hloop).
    destruct (vocab !! line_word line) as [idx|] eqn:Hidx; [|by subst].
    apply setitem_row_lookup in Hset as [Hother _]; [|by eapply Hpos].
    apply Hother. intros Heq.
    apply Hline, (Hinj _ _ idx); [done|].
    rewrite Hw. f_equal. apply Hpos in Hidx, Hw. lia.
Qed.

(** With a vocabulary of distinct, contiguous indices: the row of a word
    of the vocabulary that is the first field of no line of the file is
    all zeros. *)
Theorem load_word_embeddings_absent (vocab : dict) (f : list str) (dim : Z)
    (emb : list (list float)) (w : str) (i : Z) :
  injective vocab → contiguous vocab →
  load_word_embeddings vocab f dim = Ok emb →
  vocab !! w = Some i →
  Forall (λ line, line_word line ≠ w) f →
  emb !! Z.to_nat i = Some (replicate (Z.to_nat dim) float_zero).
Proof.
  intros Hinj Hc Hload Hw Hf. unfold load_word_embeddings in Hload.
  destruct (Z.ltb_spec dim 0); [done|].
  rewrite (load_word_embeddings_loop_other vocab dim f
             (replicate (size vocab) (replicate (Z.to_nat dim) float_zero))
             emb w i);
    try done.
  - apply lookup_replicate_2.
    apply (contiguous_bound _ _ _ Hc) in Hw. lia.
  - intros k v Hk. apply (contiguous_bound _ _ _ Hc) in Hk. lia.
Qed.

(** With such a vocabulary: the row of a word of the vocabulary holds the
    numbers of the last line that has this word as its first field, a
    single number being repeated [dim] times. *)
Theorem load_word_embeddings_present (vocab : dict) (f1 f2 : list str)
    (line : str) (dim : Z) (emb : list (list float)) (i : Z) :
  injective vocab → contiguous vocab →
  load_word_embeddings vocab (f1 ++ line :: f2) dim = Ok emb →
  vocab !! line_word line = Some i →
  Forall (λ line', line_word line' ≠ line_word line) f2 →
  ∃ v,
    mapM to_float (line_values line) = Ok v ∧
    ((len v = dim ∧ emb !! Z.to_nat i = Some v) ∨
     (∃ x, v = [x] ∧ emb !! Z.to_nat i = Some (replicate (Z.to_nat dim) x))).
Proof.
  intros Hinj Hc Hload Hw Hf2. unfold load_word_embeddings in Hload.
  destruct (Z.ltb_spec dim 0); [done|].
  rewrite load_word_embeddings_loop_app in Hload.
  destruct (load_word_embeddings_loop vocab dim f1 _) as [emb1|];
    cbn in Hload; [|done].
  apply load_word_embeddings_loop_cons in Hload
    as (v & emb2 & Hv & Hset & Hloop).
  rewrite Hw in Hset.
  assert (∀ k v, vocab !! k = Some v → 0 ≤ v) as Hpos.
  { intros k v' Hk. apply (contiguous_bound _ _ _ Hc) in Hk. lia. }
  apply setitem_row_lookup in Hset as [_ Hrow]; [|by eapply Hpos].
  exists v. split; [done|].
  by rewrite (load_word_embeddings_loop_other vocab dim f2 emb2 emb
                (line_word line) i).
Qed.

Lemma load_word_embeddings_loop_malformed (vocab : dict) (dim : Z)
    (f : list str) (emb : list (list float)) (line x : str) :
  line ∈ f → x ∈ line_values line → float_of_str x = None →
  raises (load_word_embeddings_loop vocab dim f emb).
Proof.
  intros Hline Hx Hbad. revert emb.
  induction f as [|line' f IH]; intros emb;
    [by apply elem_of_nil in Hline|].
  cbn [load_word_embeddings_loop].
  fold (line_values line') (line_word line').
  apply elem_of_cons in Hline as [<-|Hline].
  - assert (raises (mapM to_float (line_values line))) as [e ->].
    { apply mapM_raises. exists x. split; [done|].
      unfold to_float. rewrite Hbad. by eexists. }
    by exists e.
  - destruct (mapM to_float _) as [v|e]; cbn; [|by exists e].
    destruct (contains vocab _); cbn; [|by apply IH].
    destruct (getitem vocab _) as [idx|e]; cbn; [|by exists e].
    destruct (setitem_row emb dim idx v) as [emb1|e]; cbn;
      [by apply IH|by exists e].
Qed.

(** A field that is not a number makes [load_word_embeddings] raise, on
    whatever line it is, the word of the line being in the vocabulary or
    not. *)
Theorem load_word_embeddings_malformed (vocab : dict) (f : list str)
    (dim : Z) (line x : str) :
  line ∈ f → x ∈ line_values line → float_of_str x = None →
  raises (load_word_embeddings vocab f dim).
Proof.
  intros Hline Hx Hbad. unfold load_word_embeddings.
  destruct (dim <? 0); [by eexists|].
  by eapply load_word_embeddings_loop_malformed.
Qed.

End preprocess.

(** * Concrete inputs *)

(** C5, at the input where the code and the claim part. From a training set
    whose only word is ["The"], [get_vocabs] collects ["The"] as written:
    the lowercased ["the"] is not in the collected set, and after the
    intersection with an embedding vocabulary that has ["the"], only the
    [UNK] and [NUM] tokens are left. *)
Theorem build_vocab_collects_words_as_written :
  (get_vocabs [Dataset [[py "The"]] [[py "O"]]; Dataset [] []; Dataset [] []]).1
  = {[ py "The" ]} ∧
  ascii_lower (py "The") = py "the" ∧
  (py "the" ∉
     (get_vocabs [Dataset [[py "The"]] [[py "O"]];
                  Dataset [] []; Dataset [] []]).1) ∧
  (build_vocab_sets UNK_token PAD_token NUM_token ascii_lower
     (Corpus (Dataset [[py "The"]] [[py "O"]]) (Dataset [] []) (Dataset [] []))
     {[ py "the" ]}).1.1
  = {[ UNK_token; NUM_token ]}.
Proof.
  assert ((get_vocabs [Dataset [[py "The"]] [[py "O"]];
                       Dataset [] []; Dataset [] []]).1
          = {[ py "The" ]}) as H by (by vm_compute).
  split; [done|]. split; [done|]. split.
  - rewrite H. by intros [=]%elem_of_singleton.
  - by vm_compute.
Qed.

(** C1, a vocabulary on which it fails: [{"cat": 0}] has exactly the value
    0 and does not hold ["dog"], and the closure raises on ["dog"]. *)
Lemma get_processing_word_raises_without_pad :
  contiguous {[ py "cat" := 0 ]} ∧
  ({[ py "cat" := 0 ]} : dict) !! py "dog" = None ∧
  get_processing_word UNK_token PAD_token ascii_lower
    (Some {[ py "cat" := 0 ]}) None false false (py "dog")
  = Raise (KeyError (KStr PAD_token)).
Proof.
  split; [apply contiguous_singleton|]. split; reflexivity.
Qed.

Lemma get_processing_word_word_id_witness :
  is_Some (({[ PAD_token := 0; UNK_token := 1; py "cat" := 2 ]} : dict)
           !! PAD_token) ∧
  ∃ (r : processed) (wid : Z),
    get_processing_word UNK_token PAD_token ascii_lower
      (Some {[ PAD_token := 0; UNK_token := 1; py "cat" := 2 ]})
      None true false (py "Dog7") = Ok r ∧
    word_of r = TId wid ∧ wid = 1.
Proof.
  assert (is_Some (({[ PAD_token := 0; UNK_token := 1; py "cat" := 2 ]} : dict)
                   !! PAD_token)) as Hpad by (by exists 0).
  split; [done|].
  destruct (get_processing_word_word_id UNK_token PAD_token ascii_lower
              {[ PAD_token := 0; UNK_token := 1; py "cat" := 2 ]}
              None true false (py "Dog7") Hpad)
    as (r & wid & Hr & Hw & Hid & _); [by intros cs [=]|].
  exists r, wid. split; [done|]. split; [done|].
  vm_compute in Hid. exact Hid.
Defined.

(** C3, an input on which it fails: after [fit] on the word ["a"], the
    character vocabulary is [{UNK: 0, "a": 1}], and [transform] gives the
    word ["ab"] the two character ids [[1, 0]], the id of [UNK] standing
    for ["b"]. *)
Lemma transform_keeps_unknown_characters :
  vocab_char (fit UNK_token ascii_lower elements (init true true true None)
                [[py "a"]] [[py "O"]])
  = Some {[ UNK_token := 0; py "a" := 1 ]} ∧
  transform UNK_token ascii_lower
    (fit UNK_token ascii_lower elements (init true true true None)
       [[py "a"]] [[py "O"]])
    [[py "ab"]] []
  = Ok ([CharsWords [[1; 0]] [0]], []) ∧
  length (filter (λ c, is_Some (({[ UNK_token := 0; py "a" := 1 ]} : dict)
                                !! [c])) (py "ab")) = 1%nat.
Proof. split; [|split]; by vm_compute. Qed.

Lemma char_ids_for_unknown_characters_witness :
  get_processing_word UNK_token PAD_token ascii_lower None
    (Some {[ UNK_token := 0; py "a" := 1 ]}) false true (py "ab")
  = Ok (CharsWord [1] (TStr (py "ab"))) ∧
  char_feature (init true true true None) = true ∧
  length [1]
  = length (filter (λ c, is_Some (({[ UNK_token := 0; py "a" := 1 ]} : dict)
                                  !! [c]))
              (normalized ascii_lower false (py "ab"))) ∧
  ∃ (chars : dict) (unk word_id : Z),
    transform UNK_token ascii_lower
      (fit UNK_token ascii_lower elements (init true true true None)
         [[py "a"]] [[py "O"]])
      [[py "ab"]] []
    = Ok ([CharsWords
             [(λ c, default unk (chars !! [c]))
                <$> norm ascii_lower
                      (fit UNK_token ascii_lower elements
                         (init true true true None) [[py "a"]] [[py "O"]])
                      (py "ab")]
             [word_id]], []).
Proof.
  assert (get_processing_word UNK_token PAD_token ascii_lower None
            (Some {[ UNK_token := 0; py "a" := 1 ]}) false true (py "ab")
          = Ok (CharsWord [1] (TStr (py "ab")))) as Hf by reflexivity.
  split; [done|]. split; [done|].
  destruct (char_ids_for_unknown_characters UNK_token PAD_token ascii_lower
              elements None {[ UNK_token := 0; py "a" := 1 ]} false (py "ab")
              [1] (TStr (py "ab")) (init true true true None)
              [[py "a"]] [[py "O"]] (py "ab") Hf eq_refl)
    as [[_ Hlen] (chars & unk & word_id & _ & _ & Ht & _)].
  split; [done|]. by exists chars, unk, word_id.
Defined.

Lemma to_onehot_padding_is_tag_zero_witness :
  to_onehot [[1]] (Config 3 0) 2 = Ok [[[0; 1]; [1; 0]; [1; 0]]] ∧
  [[1]] !! 0%nat = Some [1] ∧
  len [1] < num_steps (Config 3 0) ∧
  ∃ (rows : list (list Z)) (nc : Z),
    [[[0; 1]; [1; 0]; [1; 0]]] !! 0%nat = Some rows ∧
    (∀ j : nat, (length [1] ≤ j)%nat → Z.of_nat j < num_steps (Config 3 0) →
       rows !! j = Some (one_hot nc 0)) ∧
    vec_sum (one_hot nc 0) = 1 ∧
    to_onehot [[1; 0; 0]] (Config 3 0) 2 = Ok [[[0; 1]; [1; 0]; [1; 0]]].
Proof.
  assert (to_onehot [[1]] (Config 3 0) 2 = Ok [[[0; 1]; [1; 0]; [1; 0]]])
    as Hout by reflexivity.
  assert (len [1] < num_steps (Config 3 0)) as Hlen by (by vm_compute).
  split; [done|]. split; [done|]. split; [done|].
  destruct (to_onehot_padding_is_tag_zero [[1]] (Config 3 0) 2
              [[[0; 1]; [1; 0]; [1; 0]]] 0 [1] Hout eq_refl Hlen)
    as (rows & nc & Hrows & _ & _ & Hpad & _ & Hsum & Hsame).
  exists rows, nc. split; [done|]. split; [done|]. split; [done|].
  exact Hsame.
Defined.

(** ** The further properties on concrete inputs *)

Lemma get_processing_word_needs_pad_witness :
  ({[ py "cat" := 0 ]} : dict) !! PAD_token = None ∧
  ∃ k, get_processing_word UNK_token PAD_token ascii_lower
         (Some {[ py "cat" := 0 ]}) None false false (py "cat")
       = Raise (KeyError (KStr k))
       ∧ (k = PAD_token ∨ k = UNK_token).
Proof.
  split; [reflexivity|].
  apply (get_processing_word_needs_pad UNK_token PAD_token ascii_lower
           {[ py "cat" := 0 ]} None false false (py "cat")).
  reflexivity.
Defined.

Lemma get_processing_word_chars_need_unk_witness :
  ({[ py "a" := 1 ]} : dict) !! UNK_token = None ∧
  get_processing_word UNK_token PAD_token ascii_lower None
    (Some {[ py "a" := 1 ]}) false true (py "ba")
  = Raise (KeyError (KStr UNK_token)).
Proof.
  split; [reflexivity|].
  apply (get_processing_word_chars_need_unk UNK_token PAD_token ascii_lower
           {[ py "a" := 1 ]} false (py "ba")); [reflexivity|].
  apply Exists_exists. exists 97%N. split.
  - vm_compute. apply list_elem_of_further, list_elem_of_here.
  - exists 1. reflexivity.
Defined.

Lemma build_vocab_words_lack_pad_witness :
  dom ({[ UNK_token := 0; NUM_token := 1 ]} : dict)
  = (build_vocab_sets UNK_token PAD_token NUM_token ascii_lower
       (Corpus (Dataset [[py "The"]] [[py "O"]]) (Dataset [] []) (Dataset [] []))
       {[ py "the" ]}).1.1 ∧
  PAD_token ≠ UNK_token ∧ PAD_token ≠ NUM_token ∧
  ∃ k, get_processing_word UNK_token PAD_token ascii_lower
         (Some {[ UNK_token := 0; NUM_token := 1 ]}) None true false
         (py "The")
       = Raise (KeyError (KStr k)).
Proof.
  assert (dom ({[ UNK_token := 0; NUM_token := 1 ]} : dict)
    = (build_vocab_sets UNK_token PAD_token NUM_token ascii_lower
         (Corpus (Dataset [[py "The"]] [[py "O"]]) (Dataset [] [])
                 (Dataset [] []))
         {[ py "the" ]}).1.1) as Hdom by (by vm_compute).
  assert (PAD_token ≠ UNK_token) as Hu by (by vm_compute).
  assert (PAD_token ≠ NUM_token) as Hn by (by vm_compute).
  split; [done|]. split; [done|]. split; [done|].
  apply (build_vocab_words_lack_pad UNK_token PAD_token NUM_token ascii_lower
           _ _ _ None true false (py "The") Hdom Hu Hn).
  intros [Hg _]. apply elem_of_singleton in Hg. by vm_compute in Hg.
Defined.

Lemma pad_chars_rectangular_witness :
  0 ≤ num_steps (Config 3 2) ∧ 0 ≤ max_word_len (Config 3 2) ∧
  ∃ res (h' : heap),
    pad_chars [[[1; 2; 3]; [4]]] (Config 3 2) ∅ = Some (res, h') ∧
    length res = 1%nat.
Proof.
  assert (0 ≤ num_steps (Config 3 2)) as Hns by (by vm_compute).
  assert (0 ≤ max_word_len (Config 3 2)) as Hmwl by (by vm_compute).
  split; [done|]. split; [done|].
  destruct (pad_chars_rectangular [[[1; 2; 3]; [4]]] (Config 3 2) ∅ Hns Hmwl)
    as (res & h' & Hcall & Hlen & _).
  by exists res, h'.
Defined.




Lemma to_onehot_shape_witness :
  0 < 2 ∧
  to_onehot [[1]] (Config 3 0) 2 = Ok [[[0; 1]; [1; 0]; [1; 0]]] ∧
  length [[[0; 1]; [1; 0]; [1; 0]]] = length [[1]] ∧
  Forall (λ rows, len rows = num_steps (Config 3 0)
                  ∧ Forall (λ v, len v = 2) rows)
         [[[0; 1]; [1; 0]; [1; 0]]].
Proof.
  assert (0 < 2) as Hnt by done.
  assert (to_onehot [[1]] (Config 3 0) 2 = Ok [[[0; 1]; [1; 0]; [1; 0]]])
    as Hout by reflexivity.
  split; [done|]. split; [done|].
  exact (to_onehot_shape [[1]] (Config 3 0) 2 _ Hnt Hout).
Defined.


Lemma to_onehot_returns_witness :
  0 < num_steps (Config 3 0) ∧ 0 < 2 ∧
  (∀ y l, y ∈ [[1]] → l ∈ y → 0 ≤ l < 2) ∧
  ∃ out, to_onehot [[1]] (Config 3 0) 2 = Ok out.
Proof.
  assert (0 < num_steps (Config 3 0)) as Hns by (by vm_compute).
  assert (0 < 2) as Hnt by done.
  assert (∀ y l, y ∈ [[1]] → l ∈ y → 0 ≤ l < 2) as Hys.
  { intros y l ->%list_elem_of_singleton ->%list_elem_of_singleton. lia. }
  repeat (split; [done|]).
  exact (to_onehot_returns [[1]] (Config 3 0) 2 Hns Hnt Hys).
Defined.

Lemma get_vocabs_labelled_witness :
  (∀ ds, ds ∈ [Dataset [[py "The"]] [[py "O"]]] →
         length (sents ds) = length (labels ds)) ∧
  (py "The" ∈ (get_vocabs [Dataset [[py "The"]] [[py "O"]]]).1 ↔
   ∃ ds words, ds ∈ [Dataset [[py "The"]] [[py "O"]]]
               ∧ words ∈ sents ds ∧ py "The" ∈ words).
Proof.
  assert (∀ ds, ds ∈ [Dataset [[py "The"]] [[py "O"]]] →
                length (sents ds) = length (labels ds)) as Hlen.
  { intros ds ->%list_elem_of_singleton. reflexivity. }
  split; [done|].
  apply (get_vocabs_labelled [Dataset [[py "The"]] [[py "O"]]] Hlen).
Defined.

Lemma fit_word_vocabulary_keys_witness :
  (∀ s : gset str, elements s ≡ₚ elements s) ∧
  ∃ words : dict,
    vocab_word (fit UNK_token ascii_lower elements (init true true true None)
                  [[py "A1"]] [[py "O"]]) = Some words ∧
    ∀ k, is_Some (words !! k) ↔
         k = UNK_token ∨
         ∃ w, (w ∈ concat [[py "A1"]] ∨ w ∈ vocab_init (init true true true None))
              ∧ k = norm ascii_lower (init true true true None) w.
Proof.
  split; [done|].
  apply (fit_word_vocabulary_keys UNK_token ascii_lower elements
           (λ s, reflexivity (elements s))).
Defined.

Lemma fit_char_vocabulary_keys_witness :
  (∀ s : gset str, elements s ≡ₚ elements s) ∧
  ∃ chars : dict,
    vocab_char (fit UNK_token ascii_lower elements (init true true false None)
                  [[py "A1"]] [[py "O"]]) = Some chars ∧
    chars = {[ UNK_token := 0 ]}.
Proof.
  split; [done|].
  destruct (fit_char_vocabulary_keys UNK_token ascii_lower elements
              (λ s, reflexivity (elements s)) (init true true false None)
              [[py "A1"]] [[py "O"]]) as (chars & Hchars & _ & Hnone).
  exists chars. split; [exact Hchars|]. apply Hnone. reflexivity.
Defined.

Lemma fit_tag_ids_first_seen_witness :
  concat [[py "O"; py "B"]; [py "O"]] = [py "O"] ++ py "B" :: [py "O"] ∧
  (py "B" ∉ [py "O"]) ∧
  ∃ tags : dict,
    vocab_tag (fit UNK_token ascii_lower elements (init true true true None)
                 [[py "a"; py "b"]; [py "c"]] [[py "O"; py "B"]; [py "O"]])
    = Some tags ∧
    tags !! py "B" = Some (Z.of_nat (size (list_to_set [py "O"] : gset str))).
Proof.
  assert (py "B" ∉ [py "O"]) as Ht.
  { intros Hin%list_elem_of_singleton. by vm_compute in Hin. }
  split; [reflexivity|]. split; [done|].
  destruct (fit_tag_ids_first_seen UNK_token ascii_lower elements
              (init true true true None) [[py "a"; py "b"]; [py "c"]]
              [[py "O"; py "B"]; [py "O"]] [py "O"] [py "O"] (py "B")
              eq_refl Ht) as (tags & Htags & Hid & _).
  exists tags. exact (conj Htags Hid).
Defined.

Lemma transform_ids_in_range_witness :
  transform UNK_token ascii_lower
    (fit UNK_token ascii_lower elements (init true true true None)
       [[py "a"]] [[py "O"]])
    [[py "ab"]] [[py "O"]]
  = Ok ([CharsWords [[1; 0]] [0]], [[0]]) ∧
  ∃ words chars tags : dict,
    vocab_word (fit UNK_token ascii_lower elements (init true true true None)
                  [[py "a"]] [[py "O"]]) = Some words ∧
    Forall (λ f, Forall (in_range words) (word_ids_of f) ∧
                 Forall (Forall (in_range chars)) (char_ids_of f))
           [CharsWords [[1; 0]] [0]] ∧
    Forall (Forall (in_range tags)) [[0]].
Proof.
  assert (transform UNK_token ascii_lower
            (fit UNK_token ascii_lower elements (init true true true None)
               [[py "a"]] [[py "O"]])
            [[py "ab"]] [[py "O"]]
          = Ok ([CharsWords [[1; 0]] [0]], [[0]])) as Ht by (by vm_compute).
  split; [done|].
  destruct (transform_ids_in_range UNK_token ascii_lower elements
              (init true true true None) [[py "a"]] [[py "O"]]
              [[py "ab"]] [[py "O"]] _ _ Ht)
    as (words & chars & tags & Hw & _ & _ & Hsents & Hids).
  exists words, chars, tags. exact (conj Hw (conj Hsents Hids)).
Defined.

Lemma transform_distinguishes_words_witness :
  (∀ s : gset str, elements s ≡ₚ elements s) ∧
  py "Cat" ∈ concat [[py "Cat"; py "cat"]] ∧
  py "cat" ∈ concat [[py "Cat"; py "cat"]] ∧
  ∃ (sents : list features) (i1 i2 : Z),
    transform UNK_token ascii_lower
      (fit UNK_token ascii_lower elements (init true true true None)
         [[py "Cat"; py "cat"]] [[py "O"; py "O"]])
      [[py "Cat"; py "cat"]] [] = Ok (sents, []) ∧
    word_ids_of <$> sents = [[i1; i2]] ∧
    (i1 = i2 ↔ norm ascii_lower (init true true true None) (py "Cat")
               = norm ascii_lower (init true true true None) (py "cat")).
Proof.
  assert (py "Cat" ∈ concat [[py "Cat"; py "cat"]]) as H1
    by apply list_elem_of_here.
  assert (py "cat" ∈ concat [[py "Cat"; py "cat"]]) as H2
    by apply list_elem_of_further, list_elem_of_here.
  split; [done|]. split; [done|]. split; [done|].
  destruct (transform_distinguishes_words UNK_token ascii_lower elements
              (λ s, reflexivity (elements s)) (init true true true None)
              [[py "Cat"; py "cat"]] [[py "O"; py "O"]] (py "Cat") (py "cat")
              H1 H2) as (sents & i1 & i2 & Ht & Hids & Heq & _).
  exists sents, i1, i2. exact (conj Ht (conj Hids Heq)).
Defined.

Lemma transform_before_fit_witness :
  ([py "a"] ∈ [[py "a"]] ∨ [py "a"] ∈ ([] : list (list str))) ∧
  py "a" ∈ [py "a"] ∧
  transform UNK_token ascii_lower (init true true true None) [[py "a"]] []
  = Raise TypeError ∧
  inverse_transform (init true true true None) [0] = Raise AttributeError.
Proof.
  assert ([py "a"] ∈ [[py "a"]] ∨ [py "a"] ∈ ([] : list (list str))) as Hs
    by (left; apply list_elem_of_here).
  assert (py "a" ∈ [py "a"]) as Hw by apply list_elem_of_here.
  split; [done|]. split; [done|].
  exact (transform_before_fit UNK_token ascii_lower true true true None
           [[py "a"]] [] [py "a"] (py "a") [0] Hs Hw).
Defined.

Lemma load_vocab_last_line_witness :
  ({[ py "words.txt" := [py "a "; py "b"; py "a"] ]} : files)
    !! py "words.txt" = Some [py "a "; py "b"; py "a"] ∧
  ∃ d : dict,
    load_vocab_func ascii_isspace
      {[ py "words.txt" := [py "a "; py "b"; py "a"] ]} (py "words.txt")
    = Read d ∧
    d !! py "a" = Some 2.
Proof.
  assert (({[ py "words.txt" := [py "a "; py "b"; py "a"] ]} : files)
            !! py "words.txt" = Some [py "a "; py "b"; py "a"]) as Hf
    by reflexivity.
  split; [exact Hf|].
  destruct (load_vocab_last_line ascii_isspace
              {[ py "words.txt" := [py "a "; py "b"; py "a"] ]}
              (py "words.txt") [py "a "; py "b"; py "a"] (py "a") 2 Hf)
    as (d & Hd & Hlookup).
  exists d. split; [exact Hd|]. apply Hlookup.
  exists 2%nat, (py "a").
  split; [reflexivity|]. split; [reflexivity|]. split; [reflexivity|].
  intros [|[|[|j]]] w' Hj Hw'; try lia. discriminate Hw'.
Defined.

Lemma load_vocab_distinct_tokens_witness :
  ascii_isspace 10%N = true ∧
  NoDup [UNK_token; py "cat"] ∧
  (∀ t, t ∈ [UNK_token; py "cat"] → rstrip ascii_isspace t = t) ∧
  load_vocab_lines ascii_isspace
    ((λ t, t ++ [10%N]) <$> [UNK_token; py "cat"]) !! py "cat"
  = Some (Z.of_nat 1) ∧
  contiguous (load_vocab_lines ascii_isspace
                ((λ t, t ++ [10%N]) <$> [UNK_token; py "cat"])).
Proof.
  assert (NoDup [UNK_token; py "cat"]) as Hnd.
  { apply (bool_decide_unpack _). by vm_compute. }
  assert (∀ t, t ∈ [UNK_token; py "cat"] → rstrip ascii_isspace t = t) as Hts.
  { intros t [->|[->|[]%elem_of_nil]%elem_of_cons]%elem_of_cons;
      reflexivity. }
  split; [reflexivity|]. split; [done|]. split; [done|].
  destruct (load_vocab_distinct_tokens ascii_isspace [UNK_token; py "cat"]
              eq_refl Hnd Hts) as (Hlookup & _ & _ & Hcont).
  split; [|done]. by apply (Hlookup 1%nat).
Defined.

Lemma load_word_embeddings_shape_witness :
  load_word_embeddings ascii_isspace Z 0 digit_of_str
    (foldl add_token ∅ [UNK_token; py "cat"; py "dog"])
    [py "cat 1 2"; py "owl 3 4"] 2
  = Ok [[0; 0]; [1; 2]; [0; 0]] ∧
  length [[0; 0]; [1; 2]; [0; 0]]
  = size (foldl add_token ∅ [UNK_token; py "cat"; py "dog"]) ∧
  Forall (λ row, len row = 2) [[0; 0]; [1; 2]; [0; 0]].
Proof.
  assert (load_word_embeddings ascii_isspace Z 0 digit_of_str
            (foldl add_token ∅ [UNK_token; py "cat"; py "dog"])
            [py "cat 1 2"; py "owl 3 4"] 2
          = Ok [[0; 0]; [1; 2]; [0; 0]]) as Hload by (by vm_compute).
  split; [done|].
  exact (load_word_embeddings_shape ascii_isspace Z 0 digit_of_str _ _ _ _
           Hload).
Defined.

Lemma load_word_embeddings_absent_witness :
  injective (foldl add_token ∅ [UNK_token; py "cat"; py "dog"]) ∧
  contiguous (foldl add_token ∅ [UNK_token; py "cat"; py "dog"]) ∧
  load_word_embeddings ascii_isspace Z 0 digit_of_str
    (foldl add_token ∅ [UNK_token; py "cat"; py "dog"])
    [py "cat 1 2"; py "owl 3 4"] 2
  = Ok [[0; 0]; [1; 2]; [0; 0]] ∧
  foldl add_token ∅ [UNK_token; py "cat"; py "dog"] !! py "dog" = Some 2 ∧
  Forall (λ line, line_word ascii_isspace line ≠ py "dog")
         [py "cat 1 2"; py "owl 3 4"] ∧
  [[0; 0]; [1; 2]; [0; 0]] !! Z.to_nat 2
  = Some (replicate (Z.to_nat 2) 0).
Proof.
  destruct (foldl_add_token_indexed id [UNK_token; py "cat"; py "dog"] ∅)
    as [Hinj Hcont].
  { split; [apply injective_empty|apply contiguous_empty]. }
  assert (load_word_embeddings ascii_isspace Z 0 digit_of_str
            (foldl add_token ∅ [UNK_token; py "cat"; py "dog"])
            [py "cat 1 2"; py "owl 3 4"] 2
          = Ok [[0; 0]; [1; 2]; [0; 0]]) as Hload by (by vm_compute).
  assert (foldl add_token ∅ [UNK_token; py "cat"; py "dog"] !! py "dog"
          = Some 2) as Hdog by (by vm_compute).
  assert (Forall (λ line, line_word ascii_isspace line ≠ py "dog")
                 [py "cat 1 2"; py "owl 3 4"]) as Hlines.
  { repeat constructor; by vm_compute. }
  repeat (split; [done|]).
  exact (load_word_embeddings_absent ascii_isspace Z 0 digit_of_str _ _ _ _
           (py "dog") 2 Hinj Hcont Hload Hdog Hlines).
Defined.

Lemma load_word_embeddings_present_witness :
  injective (foldl add_token ∅ [UNK_token; py "cat"; py "dog"]) ∧
  contiguous (foldl add_token ∅ [UNK_token; py "cat"; py "dog"]) ∧
  load_word_embeddings ascii_isspace Z 0 digit_of_str
    (foldl add_token ∅ [UNK_token; py "cat"; py "dog"])
    ([py "cat 3 4"] ++ py "cat 1 2" :: [py "owl 3 4"]) 2
  = Ok [[0; 0]; [1; 2]; [0; 0]] ∧
  foldl add_token ∅ [UNK_token; py "cat"; py "dog"]
    !! line_word ascii_isspace (py "cat 1 2") = Some 1 ∧
  Forall (λ line', line_word ascii_isspace line'
                   ≠ line_word ascii_isspace (py "cat 1 2"))
         [py "owl 3 4"] ∧
  ∃ v, mapM (to_float Z digit_of_str)
         (line_values ascii_isspace (py "cat 1 2")) = Ok v ∧
       v = [1; 2].
Proof.
  destruct (foldl_add_token_indexed id [UNK_token; py "cat"; py "dog"] ∅)
    as [Hinj Hcont].
  { split; [apply injective_empty|apply contiguous_empty]. }
  assert (load_word_embeddings ascii_isspace Z 0 digit_of_str
            (foldl add_token ∅ [UNK_token; py "cat"; py "dog"])
            ([py "cat 3 4"] ++ py "cat 1 2" :: [py "owl 3 4"]) 2
          = Ok [[0; 0]; [1; 2]; [0; 0]]) as Hload by (by vm_compute).
  assert (foldl add_token ∅ [UNK_token; py "cat"; py "dog"]
            !! line_word ascii_isspace (py "cat 1 2") = Some 1) as Hcat
    by (by vm_compute).
  assert (Forall (λ line', line_word ascii_isspace line'
                           ≠ line_word ascii_isspace (py "cat 1 2"))
                 [py "owl 3 4"]) as Hlines.
  { repeat constructor; by vm_compute. }
  repeat (split; [done|]).
  destruct (load_word_embeddings_present ascii_isspace Z 0 digit_of_str
              _ _ _ _ _ _ 1 Hinj Hcont Hload Hcat Hlines) as (v & Hv & _).
  exists v. split; [done|]. vm_compute in Hv. by injection Hv as <-.
Defined.

Lemma load_word_embeddings_malformed_witness :
  py "owl 3 x" ∈ [py "cat 1 2"; py "owl 3 x"] ∧
  py "x" ∈ line_values ascii_isspace (py "owl 3 x") ∧
  digit_of_str (py "x") = None ∧
  raises (load_word_embeddings ascii_isspace Z 0 digit_of_str
            (foldl add_token ∅ [UNK_token; py "cat"; py "dog"])
            [py "cat 1 2"; py "owl 3 x"] 2).
Proof.
  assert (py "owl 3 x" ∈ [py "cat 1 2"; py "owl 3 x"]) as Hline
    by apply list_elem_of_further, list_elem_of_here.
  assert (py "x" ∈ line_values ascii_isspace (py "owl 3 x")) as Hx.
  { vm_compute. apply list_elem_of_further, list_elem_of_here. }
  split; [done|]. split; [done|]. split; [reflexivity|].
  exact (load_word_embeddings_malformed ascii_isspace Z 0 digit_of_str
           _ _ 2 _ _ Hline Hx eq_refl).
Defined.
